(** * python-process: lifecycle of a child-process record

    A shallow embedding of [process.core.process.AbstractProcess] and of its
    two implementations, [process.process.Process] (blocking) and
    [process.asyncio.process.Process] (suspension-capable), together with a
    small executable model of the collaborators they drive
    ([subprocess.Popen], [asyncio.subprocess.Process] and their pipe
    streams).

    Python methods mutate [self] and may raise; they are embedded as
    computations in a state-and-exception monad whose state survives a raise,
    as a Python object does.

    The model of the collaborators fixes what the code leaves to them: time
    is a clock of integer ticks and a timeout a number of ticks; a child
    exits by itself at a time of its own, so a wait without timeout returns;
    delivering a signal does not fail; the statements of a coroutine run one
    after the other, nothing else being scheduled in between. *)

From Stdlib Require Import ZArith Lia Strings.Byte.
From stdpp Require Import base option list strings relations.

Local Open Scope Z_scope.

#[local] Set Primitive Projections.

(** ** Data *)

Definition bytes := list byte.

(** [core/types.py]: [File = Union[int, IO[bytes]]].  A file object is
    represented by the descriptor its [fileno()] returns. *)
Inductive File :=
| Descriptor (fd : Z)
| FileObject (fileno : Z).

(** [core/constants.py]: the three sentinels are those of [subprocess]. *)
Definition PIPE : File := Descriptor (-1).
Definition STDOUT : File := Descriptor (-2).
Definition DEVNULL : File := Descriptor (-3).

(** [Optional[Union[bytes, File]]], the type of the [stdin] argument. *)
Inductive StdinArgument :=
| Buffer (data : bytes)
| Redirect (file : File).

(** [core/types.py]: [StrOrPath = Union[str, PathLike]]; a path-like object
    is represented by the string its [__fspath__] returns. *)
Inductive StrOrPath :=
| Str (s : string)
| Path (fspath_result : string).

(** [Union[StrOrPath, Sequence[StrOrPath]]], the type of [arguments]. *)
Inductive Arguments :=
| Single (a : StrOrPath)
| Sequence (l : list StrOrPath).

(** Exceptions of the Python runtime and of the collaborators that the code
    names, catches or lets through. *)
Inductive PyError :=
| FileNotFoundError
| PermissionError
| BlockingIOError
| BrokenPipeError
| ConnectionResetError
| TimeoutExpired
| TimeoutError
| ValueError
| OSError (errno : Z).

(** [core/errors.py].  [ProcessError] is the base class; [run] raises it
    directly with the [repr] of the underlying exception in its message. *)
Inductive Exception :=
| Python (e : PyError)
| ProcessError (cause : Exception)
| ProcessNotRunError
| ProcessAlreadyRunError
| ProcessInvalidStreamError
| ProcessTimeoutError (timeout : option Z).

(** Exception classes, as they appear in [except] and [suppress]. *)
Inductive ExceptionClass :=
| cls_Exception
| cls_ProcessError
| cls_ProcessNotRunError
| cls_ProcessAlreadyRunError
| cls_ProcessInvalidStreamError
| cls_ProcessTimeoutError
| cls_BrokenPipeError
| cls_ConnectionResetError
| cls_TimeoutExpired
| cls_TimeoutError.

(** [isinstance e c], following the class hierarchy: the four specific
    process errors derive from [ProcessError], everything derives from
    [Exception]. *)
Definition isinstance (e : Exception) (c : ExceptionClass) : bool :=
  match c, e with
  | cls_Exception, _ => true
  | cls_ProcessError, Python _ => false
  | cls_ProcessError, _ => true
  | cls_ProcessNotRunError, ProcessNotRunError => true
  | cls_ProcessAlreadyRunError, ProcessAlreadyRunError => true
  | cls_ProcessInvalidStreamError, ProcessInvalidStreamError => true
  | cls_ProcessTimeoutError, ProcessTimeoutError _ => true
  | cls_BrokenPipeError, Python BrokenPipeError => true
  | cls_ConnectionResetError, Python ConnectionResetError => true
  | cls_TimeoutExpired, Python TimeoutExpired => true
  | cls_TimeoutError, Python TimeoutError => true
  | _, _ => false
  end.

(** ** The collaborators: pipes, the process object, the operating system *)

(** The parent's end of the child's standard input.  [w_data] is what has
    been written so far; the two error fields are what the peer makes the
    next write (or [drain]) and the next close (or [wait_closed]) raise. *)
Record Writer := mkWriter {
  w_closed : bool;
  w_data : bytes;
  w_write_error : option PyError;
  w_close_error : option PyError
}.

(** The parent's end of the child's standard output or error.  [r_data] is
    what the child writes up to end-of-file and nobody has read yet. *)
Record Reader := mkReader {
  r_closed : bool;
  r_data : bytes
}.

(** The two output streams of a child; a stream reader is designated by the
    stream it is bound to. *)
Inductive Std := StdOut | StdErr.

(** What [subprocess.Popen] and [asyncio.subprocess.Process] expose, and the
    child behind them: it exits by itself at [exit_time] with
    [exit_status]. *)
Record Popen := mkPopen {
  pid : Z;
  returncode : option Z;
  p_stdin : option Writer;
  p_stdout : option Reader;
  p_stderr : option Reader;
  exit_time : Z;
  exit_status : Z;
  signals : list Z
}.

(** One call of the process-creation primitive. *)
Record SpawnRequest := mkRequest {
  rq_args : list string;
  rq_bufsize : Z;
  rq_stdin : option File;
  rq_stdout : option File;
  rq_stderr : option File;
  rq_creationflags : Z
}.

(** What the operating system answers when creation succeeds: the child's
    pid, how long it runs and with which status it exits, what it writes (in
    order, each chunk to [StdOut] or [StdErr]) and how its standard input
    behaves. *)
Record Child := mkChild {
  c_pid : Z;
  c_lifetime : Z;
  c_status : Z;
  c_writes : list (Std * bytes);
  c_write_error : option PyError;
  c_close_error : option PyError
}.

(** Everything outside the record: the platform, the clock, the store of
    Python list objects (addressed by position), the log of the creation
    requests made so far and the answer of the operating system to the next
    one, given how many were made before.  [is_windows] is
    [sys.platform == "win32"], [has_wait_closed] is
    [sys.version_info >= (3, 8)], and [shlex_split] is [shlex.split], which
    answers [None] where Python raises [ValueError]. *)
Record World := mkWorld {
  is_windows : bool;
  has_wait_closed : bool;
  shlex_split : string -> option (list string);
  now : Z;
  heap : list (list string);
  requests : list SpawnRequest;
  os_create : nat -> SpawnRequest -> PyError + Child
}.

(** [AbstractProcess]: the attributes set by [__init__]. *)
Record Process := mkProcess {
  _arguments : nat;
  _stdin : option StdinArgument;
  _stdout : option File;
  _stderr : option File;
  _buffer_size : Z;
  _output : bytes;
  _error : bytes;
  _process : option Popen
}.

Record State := mkState {
  world : World;
  self : Process
}.

(** ** Computations *)

Inductive Outcome (A : Type) :=
| Returns (a : A)
| Raises (e : Exception).
Arguments Returns {A} a.
Arguments Raises {A} e.

Definition M (A : Type) : Type := State -> Outcome A * State.

Definition ret {A} (a : A) : M A := fun s => (Returns a, s).

Definition raise {A} (e : Exception) : M A := fun s => (Raises e, s).

Definition bind {A B} (m : M A) (k : A -> M B) : M B :=
  fun s =>
    match m s with
    | (Returns a, s') => k a s'
    | (Raises e, s') => (Raises e, s')
    end.

Notation "'do' x <- m ; k" := (bind m (fun x => k))
  (at level 10, x name, m at level 100, k at level 200, only parsing).

Definition when (b : bool) (m : M unit) : M unit :=
  if b then m else ret tt.

(** [with suppress(c1, ..., cn): body]. *)
Definition suppress (classes : list ExceptionClass) (body : M unit) : M unit :=
  fun s =>
    match body s with
    | (Raises e, s') =>
        if existsb (isinstance e) classes then (Returns tt, s') else (Raises e, s')
    | r => r
    end.

(** [try: body / except c: handler]. *)
Definition try_except {A} (body : M A) (c : ExceptionClass)
    (handler : Exception -> M A) : M A :=
  fun s =>
    match body s with
    | (Raises e, s') => if isinstance e c then handler e s' else (Raises e, s')
    | r => r
    end.

(** State accessors. *)
Definition get_self : M Process := fun s => (Returns (self s), s).
Definition get_world : M World := fun s => (Returns (world s), s).
Definition put_self (p : Process) : M unit :=
  fun s => (Returns tt, mkState (world s) p).
Definition put_world (w : World) : M unit :=
  fun s => (Returns tt, mkState w (self s)).

Definition set_process (h : option Popen) (p : Process) : Process :=
  mkProcess (_arguments p) (_stdin p) (_stdout p) (_stderr p) (_buffer_size p)
    (_output p) (_error p) h.
Definition set_output (b : bytes) (p : Process) : Process :=
  mkProcess (_arguments p) (_stdin p) (_stdout p) (_stderr p) (_buffer_size p)
    b (_error p) (_process p).
Definition set_error (b : bytes) (p : Process) : Process :=
  mkProcess (_arguments p) (_stdin p) (_stdout p) (_stderr p) (_buffer_size p)
    (_output p) b (_process p).

Definition set_now (t : Z) (w : World) : World :=
  mkWorld (is_windows w) (has_wait_closed w) (shlex_split w) t (heap w)
    (requests w) (os_create w).
Definition set_heap (h : list (list string)) (w : World) : World :=
  mkWorld (is_windows w) (has_wait_closed w) (shlex_split w) (now w) h
    (requests w) (os_create w).
Definition set_requests (l : list SpawnRequest) (w : World) : World :=
  mkWorld (is_windows w) (has_wait_closed w) (shlex_split w) (now w) (heap w)
    l (os_create w).

Definition set_returncode (c : option Z) (h : Popen) : Popen :=
  mkPopen (pid h) c (p_stdin h) (p_stdout h) (p_stderr h)
    (exit_time h) (exit_status h) (signals h).
Definition set_p_stdin (w : option Writer) (h : Popen) : Popen :=
  mkPopen (pid h) (returncode h) w (p_stdout h) (p_stderr h)
    (exit_time h) (exit_status h) (signals h).
Definition set_p_stdout (r : option Reader) (h : Popen) : Popen :=
  mkPopen (pid h) (returncode h) (p_stdin h) r (p_stderr h)
    (exit_time h) (exit_status h) (signals h).
Definition set_p_stderr (r : option Reader) (h : Popen) : Popen :=
  mkPopen (pid h) (returncode h) (p_stdin h) (p_stdout h) r
    (exit_time h) (exit_status h) (signals h).

Definition set_exit (t status : Z) (h : Popen) : Popen :=
  mkPopen (pid h) (returncode h) (p_stdin h) (p_stdout h) (p_stderr h)
    t status (signals h).
Definition set_signals (l : list Z) (h : Popen) : Popen :=
  mkPopen (pid h) (returncode h) (p_stdin h) (p_stdout h) (p_stderr h)
    (exit_time h) (exit_status h) l.

(** Mutation of the process object the record holds. *)
Definition modify_popen (f : Popen -> Popen) : M unit :=
  fun s =>
    match _process (self s) with
    | Some h => (Returns tt, mkState (world s) (set_process (Some (f h)) (self s)))
    | None => (Returns tt, s)
    end.

(** *** Python list objects *)

(** [list(l)] and list displays: a new object at the next free address. *)
Definition alloc (l : list string) : M nat :=
  fun s =>
    (Returns (length (heap (world s))),
     mkState (set_heap (heap (world s) ++ [l]) (world s)) (self s)).

(** The elements of the list object at address [a]. *)
Definition deref (a : nat) : M (list string) :=
  fun s => (Returns (default [] (heap (world s) !! a)), s).

(** Any in-place mutation ([append], [pop], item assignment, ...) of the
    list object at address [a] by whoever holds a reference to it. *)
Definition mutate (a : nat) (l : list string) : M unit :=
  fun s => (Returns tt, mkState (set_heap (<[a := l]> (heap (world s))) (world s)) (self s)).

(** *** Pipe ends, shared by both kinds of stream object *)

Definition the_writer (s : State) : option Writer :=
  match _process (self s) with
  | Some h => p_stdin h
  | None => None
  end.

Definition p_reader (which : Std) (h : Popen) : option Reader :=
  match which with
  | StdOut => p_stdout h
  | StdErr => p_stderr h
  end.

Definition set_p_reader (which : Std) (r : option Reader) (h : Popen) : Popen :=
  match which with
  | StdOut => set_p_stdout r h
  | StdErr => set_p_stderr r h
  end.

Definition the_reader (which : Std) (s : State) : option Reader :=
  match _process (self s) with
  | Some h => p_reader which h
  | None => None
  end.

Definition modify_writer (f : Writer -> Writer) : M unit :=
  modify_popen (fun h => set_p_stdin (option_map f (p_stdin h)) h).

Definition modify_reader (which : Std) (f : Reader -> Reader) : M unit :=
  modify_popen (fun h => set_p_reader which (option_map f (p_reader which h)) h).

Definition raise_if (e : option PyError) : M unit :=
  match e with
  | Some e => raise (Python e)
  | None => ret tt
  end.

(** *** Blocking file objects ([io.BufferedWriter], [io.BufferedReader],
    [io.FileIO]) *)
Module IO.

(** [stream.closed]. *)
Definition writer_closed : M bool :=
  fun s => (Returns (from_option w_closed true (the_writer s)), s).

(** [stream.write(data)]; writing to a closed file is a [ValueError]. *)
Definition write (data : bytes) : M unit :=
  do closed <- writer_closed;
  if closed then raise (Python ValueError)
  else
    do fault <- (fun s => (Returns (the_writer s ≫= w_write_error), s));
    do _ <- raise_if fault;
    modify_writer (fun w =>
      mkWriter (w_closed w) (w_data w ++ data) (w_write_error w) (w_close_error w)).

(** [stream.close()]: the object is closed even when flushing fails; closing
    twice has no effect. *)
Definition writer_close : M unit :=
  do closed <- writer_closed;
  if closed then ret tt
  else
    do fault <- (fun s => (Returns (the_writer s ≫= w_close_error), s));
    do _ <- modify_writer (fun w =>
      mkWriter true (w_data w) (w_write_error w) (w_close_error w));
    raise_if fault.

Definition reader_closed (which : Std) : M bool :=
  fun s => (Returns (from_option r_closed true (the_reader which s)), s).

(** [stream.read(n)]; [None] reads up to end-of-file.  Reading a closed
    file is a [ValueError]. *)
Definition read (which : Std) (n : option nat) : M bytes :=
  do closed <- reader_closed which;
  if closed then raise (Python ValueError)
  else
    do data <- (fun s => (Returns (from_option r_data [] (the_reader which s)), s));
    let k := from_option id (length data) n in
    do _ <- modify_reader which (fun r => mkReader (r_closed r) (drop k (r_data r)));
    ret (take k data).

Definition reader_close (which : Std) : M unit :=
  modify_reader which (fun r => mkReader true (r_data r)).

End IO.

(** *** [asyncio.StreamWriter] and [asyncio.StreamReader]; each [await] runs
    to completion before the next statement. *)
Module Streams.

(** [writer.is_closing()]. *)
Definition is_closing : M bool :=
  fun s => (Returns (from_option w_closed true (the_writer s)), s).

(** [writer.write(data)] only queues the data. *)
Definition write (data : bytes) : M unit :=
  modify_writer (fun w =>
    mkWriter (w_closed w) (w_data w ++ data) (w_write_error w) (w_close_error w)).

(** [await writer.drain()]. *)
Definition drain : M unit :=
  do fault <- (fun s => (Returns (the_writer s ≫= w_write_error), s));
  raise_if fault.

(** [writer.close()]. *)
Definition close : M unit :=
  modify_writer (fun w =>
    mkWriter true (w_data w) (w_write_error w) (w_close_error w)).

(** [await writer.wait_closed()]. *)
Definition wait_closed : M unit :=
  do fault <- (fun s => (Returns (the_writer s ≫= w_close_error), s));
  raise_if fault.

(** [await reader.read(n)]; [None] reads up to end-of-file. *)
Definition read (which : Std) (n : option nat) : M bytes :=
  do data <- (fun s => (Returns (from_option r_data [] (the_reader which s)), s));
  let k := from_option id (length data) n in
  do _ <- modify_reader which (fun r => mkReader (r_closed r) (drop k (r_data r)));
  ret (take k data).

End Streams.

(** *** The process object *)

Definition File_eqb (a b : File) : bool :=
  match a, b with
  | Descriptor x, Descriptor y => x =? y
  | FileObject x, FileObject y => x =? y
  | _, _ => false
  end.

(** [disposition == PIPE], as the creation primitive tests it. *)
Definition is_PIPE (disposition : option File) : bool :=
  match disposition with
  | Some f => File_eqb f PIPE
  | None => false
  end.

Definition is_STDOUT (disposition : option File) : bool :=
  match disposition with
  | Some f => File_eqb f STDOUT
  | None => false
  end.

(** What arrives at the pipe bound to [target]: the chunks the child writes
    to it, and those it writes to standard error when that is merged into
    standard output. *)
Definition arriving (target : Std) (merged : bool) (writes : list (Std * bytes)) : bytes :=
  flat_map (fun chunk =>
    match fst chunk, target with
    | StdOut, StdOut | StdErr, StdErr => snd chunk
    | StdErr, StdOut => if merged then snd chunk else []
    | StdOut, StdErr => []
    end) writes.

(** The object a successful creation returns at time [t]: a stream attribute
    is set exactly when the matching disposition was [PIPE]. *)
Definition new_popen (t : Z) (rq : SpawnRequest) (c : Child) : Popen :=
  mkPopen (c_pid c) None
    (if is_PIPE (rq_stdin rq)
     then Some (mkWriter false [] (c_write_error c) (c_close_error c)) else None)
    (if is_PIPE (rq_stdout rq)
     then Some (mkReader false (arriving StdOut (is_STDOUT (rq_stderr rq)) (c_writes c)))
     else None)
    (if is_PIPE (rq_stderr rq)
     then Some (mkReader false (arriving StdErr false (c_writes c))) else None)
    (t + Z.max 0 (c_lifetime c)) (c_status c) [].

(** [subprocess.Popen(...)] and
    [await asyncio.subprocess.create_subprocess_exec(...)]: the request is
    logged, and the operating system either refuses it or starts a child. *)
Definition create_subprocess (rq : SpawnRequest) : M Popen :=
  fun s =>
    let w := world s in
    let s' := mkState (set_requests (requests w ++ [rq]) w) (self s) in
    match os_create w (length (requests w)) rq with
    | inl e => (Raises (Python e), s')
    | inr c => (Returns (new_popen (now w) rq c), s')
    end.

(** [process.wait(timeout)], raising [expired] at the deadline
    ([subprocess.TimeoutExpired], or [TimeoutError] for
    [asyncio.wait_for(process.wait(), timeout)]).  A wait without timeout
    lasts until the child exits. *)
Definition wait (timeout : option Z) (expired : PyError) : M unit :=
  fun s =>
    match _process (self s) with
    | None => (Returns tt, s)
    | Some h =>
        match returncode h with
        | Some _ => (Returns tt, s)
        | None =>
            let t := now (world s) in
            let exited := mkState (set_now (Z.max t (exit_time h)) (world s))
                            (set_process (Some (set_returncode (Some (exit_status h)) h)) (self s)) in
            match timeout with
            | None => (Returns tt, exited)
            | Some d =>
                if exit_time h <=? t + Z.max 0 d then (Returns tt, exited)
                else (Raises (Python expired),
                      mkState (set_now (t + Z.max 0 d) (world s)) (self s))
            end
        end
    end.

Definition SIGKILL : Z := 9.
Definition SIGTERM : Z := 15.

(** [process.send_signal(signal)]: nothing is sent to a child already
    reaped; [SIGTERM] and [SIGKILL] end a child that is still running. *)
Definition send_signal (signal : Z) : M unit :=
  do w <- get_world;
  modify_popen (fun h =>
    match returncode h with
    | Some _ => h
    | None =>
        let h' := set_signals (signals h ++ [signal]) h in
        if ((signal =? SIGTERM) || (signal =? SIGKILL)) && (now w <? exit_time h)
        then set_exit (now w) (- signal) h'
        else h'
    end).

(** [Popen.poll()]: the exit status, collected if the child has exited. *)
Definition poll : M (option Z) :=
  fun s =>
    match _process (self s) with
    | None => (Returns None, s)
    | Some h =>
        match returncode h with
        | Some status => (Returns (Some status), s)
        | None =>
            if exit_time h <=? now (world s)
            then (Returns (Some (exit_status h)),
                  mkState (world s)
                    (set_process (Some (set_returncode (Some (exit_status h)) h)) (self s)))
            else (Returns None, s)
        end
    end.

(** [subprocess.CREATE_NEW_PROCESS_GROUP]. *)
Definition CREATE_NEW_PROCESS_GROUP : Z := 512.

(** ** [core/process.py]: [AbstractProcess] *)
Module AbstractProcess.

Definition fspath (argument : StrOrPath) : string :=
  match argument with
  | Str s => s
  | Path p => p
  end.

(** [__init__]: the new record, and the list object its comprehension
    creates. *)
Definition __init__ (arguments : Arguments) (stdin : option StdinArgument)
    (stdout stderr : option File) (buffer_size : option Z) (w : World)
    : Exception + State :=
  let arguments :=
    match arguments with
    | Single (Str s) =>
        match shlex_split w s with
        | Some tokens => inr (map Str tokens)
        | None => inl (Python ValueError)
        end
    | Single (Path p) => inr [Path p]
    | Sequence l => inr l
    end in
  match arguments with
  | inl e => inl e
  | inr arguments =>
      match buffer_size with
      | None => inl (Python ValueError)
      | Some buffer_size =>
          inr (mkState (set_heap (heap w ++ [map fspath arguments]) w)
                 (mkProcess (length (heap w)) stdin stdout stderr buffer_size [] [] None))
      end
  end.

(** [arguments]: [return list(self._arguments)]. *)
Definition arguments : M nat :=
  do p <- get_self;
  do l <- deref (_arguments p);
  alloc l.

(** [process]: both implementations define it alike. *)
Definition process : M Popen :=
  do p <- get_self;
  match _process p with
  | None => raise ProcessNotRunError
  | Some h => ret h
  end.

Definition id : M Z :=
  do h <- process; ret (pid h).

Definition exit_code : M (option Z) :=
  do h <- process; ret (returncode h).

Definition signal (signal : Z) : M unit :=
  do _ <- process; send_signal signal.

Definition terminate : M unit :=
  do _ <- process; send_signal SIGTERM.

Definition kill : M unit :=
  do _ <- process; send_signal SIGKILL.

(** [self._output += data] and [self._error += data]. *)
Definition add_output (data : bytes) : M unit :=
  do p <- get_self; put_self (set_output (_output p ++ data) p).

Definition add_error (data : bytes) : M unit :=
  do p <- get_self; put_self (set_error (_error p ++ data) p).

End AbstractProcess.

(** ** [process.py]: the blocking [Process] *)
Module Sync.
Import AbstractProcess.

Section Constants.
(** [process.constants.DEFAULT_BUFFER_SIZE]. *)
Variable DEFAULT_BUFFER_SIZE : Z.

Definition __init__ (arguments : Arguments) (stdin : option StdinArgument)
    (stdout stderr : option File) (buffer_size : option Z) (w : World)
    : Exception + State :=
  let buffer_size :=
    match buffer_size with
    | None => Some DEFAULT_BUFFER_SIZE
    | Some b => Some b
    end in
  AbstractProcess.__init__ arguments stdin stdout stderr buffer_size w.
End Constants.

Definition stdin : M unit :=
  do h <- process;
  match p_stdin h with
  | None => raise ProcessInvalidStreamError
  | Some _ => ret tt
  end.

Definition stdout : M Std :=
  do h <- process;
  match p_stdout h with
  | None => raise ProcessInvalidStreamError
  | Some _ => ret StdOut
  end.

Definition stderr : M Std :=
  do h <- process;
  match p_stderr h with
  | None => raise ProcessInvalidStreamError
  | Some _ => ret StdErr
  end.

Definition running : M bool :=
  do _ <- process; do status <- poll;
  ret (match status with None => true | Some _ => false end).

Definition join (timeout : option Z) : M unit :=
  try_except
    (do _ <- process; wait timeout TimeoutExpired)
    cls_TimeoutExpired
    (fun _ => raise (ProcessTimeoutError timeout)).

(** [run]; [should_feed_stdin] is the [Buffer] branch of the two matches
    on [stdin_]. *)
Definition run : M unit :=
  do p <- get_self;
  match _process p with
  | Some _ => raise ProcessAlreadyRunError
  | None =>
      do w <- get_world;
      let creationflags := if is_windows w then CREATE_NEW_PROCESS_GROUP else 0 in
      let stdin_ := _stdin p in
      do _ <- try_except
        (do args <- arguments;
         do argv <- deref args;
         do h <- create_subprocess
           (mkRequest argv (_buffer_size p)
              match stdin_ with
              | Some (Buffer _) => Some PIPE
              | Some (Redirect f) => Some f
              | None => None
              end
              (_stdout p) (_stderr p) creationflags);
         do q <- get_self;
         put_self (set_process (Some h) q))
        cls_Exception
        (fun exception => raise (ProcessError exception));
      match stdin_ with
      | Some (Buffer data) =>
          do _ <- stdin; do _ <- IO.write data;
          do _ <- stdin; IO.writer_close
      | _ => ret tt
      end
  end.

Definition output (join_ : bool) : M bytes :=
  do _ <- when join_ (join None);
  do r <- stdout; do closed <- IO.reader_closed r;
  do _ <- when (negb closed)
    (do r <- stdout; do data <- IO.read r None; add_output data);
  do p <- get_self; ret (_output p).

Definition error (join_ : bool) : M bytes :=
  do _ <- when join_ (join None);
  do r <- stderr; do closed <- IO.reader_closed r;
  do _ <- when (negb closed)
    (do r <- stderr; do data <- IO.read r None; add_error data);
  do p <- get_self; ret (_error p).

(** The block [close] and [__exit__] both start with. *)
Definition close_stdin : M unit :=
  suppress [cls_ProcessInvalidStreamError]
    (suppress [cls_BrokenPipeError; cls_ConnectionResetError]
       (do _ <- stdin; do closed <- IO.writer_closed;
        when (negb closed) (do _ <- stdin; IO.writer_close))).

Definition close : M unit :=
  do _ <- close_stdin;
  do _ <- terminate;
  do _ <- join None;
  do _ <- suppress [cls_ProcessInvalidStreamError]
    (do r <- stdout; do closed <- IO.reader_closed r;
     when (negb closed)
       (do r <- stdout; do data <- IO.read r None; do _ <- add_output data;
        do r <- stdout; IO.reader_close r));
  suppress [cls_ProcessInvalidStreamError]
    (do r <- stderr; do closed <- IO.reader_closed r;
     when (negb closed)
       (do r <- stderr; do data <- IO.read r None; do _ <- add_error data;
        do r <- stderr; IO.reader_close r)).

Definition __enter__ : M unit := run.

(** Of the three arguments only [exception_type] is inspected, and only
    for being [None]; it is represented by the name of the class. *)
Definition __exit__ (exception_type : option string) : M unit :=
  do _ <- close_stdin;
  do _ <- when (bool_decide (exception_type = None)) (join None);
  do _ <- suppress [cls_ProcessInvalidStreamError]
    (do r <- stdout; do closed <- IO.reader_closed r;
     when (negb closed)
       (do _ <- when (bool_decide (exception_type = None))
          (do r <- stdout; do data <- IO.read r None; add_output data);
        do r <- stdout; IO.reader_close r));
  suppress [cls_ProcessInvalidStreamError]
    (do r <- stderr; do closed <- IO.reader_closed r;
     when (negb closed)
       (do _ <- when (bool_decide (exception_type = None))
          (do r <- stderr; do data <- IO.read r None; add_error data);
        do r <- stderr; IO.reader_close r)).

Definition __del__ : M unit :=
  do p <- get_self;
  match _process p with
  | None => ret tt
  | Some _ =>
      do _ <- close_stdin;
      do alive <- running;
      do _ <- when alive (do _ <- terminate; join None);
      do _ <- suppress [cls_ProcessInvalidStreamError]
        (do r <- stdout; do closed <- IO.reader_closed r;
         when (negb closed) (do r <- stdout; IO.reader_close r));
      suppress [cls_ProcessInvalidStreamError]
        (do r <- stderr; do closed <- IO.reader_closed r;
         when (negb closed) (do r <- stderr; IO.reader_close r))
  end.

End Sync.

(** ** [asyncio/process.py]: the suspension-capable [Process] *)
Module Async.
Import AbstractProcess.

(** [asyncio/constants.py]. *)
Definition DEFAULT_BUFFER_SIZE : Z := 2 ^ 16.

Definition __init__ (arguments : Arguments) (stdin : option StdinArgument)
    (stdout stderr : option File) (buffer_size : option Z) (w : World)
    : Exception + State :=
  let buffer_size :=
    match buffer_size with
    | None => Some DEFAULT_BUFFER_SIZE
    | Some b => Some b
    end in
  AbstractProcess.__init__ arguments stdin stdout stderr buffer_size w.

Definition stdin : M unit :=
  do h <- process;
  match p_stdin h with
  | None => raise ProcessInvalidStreamError
  | Some _ => ret tt
  end.

Definition stdout : M Std :=
  do h <- process;
  match p_stdout h with
  | None => raise ProcessInvalidStreamError
  | Some _ => ret StdOut
  end.

Definition stderr : M Std :=
  do h <- process;
  match p_stderr h with
  | None => raise ProcessInvalidStreamError
  | Some _ => ret StdErr
  end.

Definition running : M bool :=
  do h <- process;
  ret (match returncode h with None => true | Some _ => false end).

Definition join (timeout : option Z) : M unit :=
  try_except
    (do _ <- process; wait timeout TimeoutError)
    cls_TimeoutError
    (fun _ => raise (ProcessTimeoutError timeout)).

(** [run]; [should_feed_stdin] is the [Buffer] branch of the two matches
    on [stdin_]. *)
Definition run : M unit :=
  do p <- get_self;
  match _process p with
  | Some _ => raise ProcessAlreadyRunError
  | None =>
      do w <- get_world;
      let creationflags := if is_windows w then CREATE_NEW_PROCESS_GROUP else 0 in
      let stdin_ := _stdin p in
      do _ <- try_except
        (do args <- arguments;
         do argv <- deref args;
         do h <- create_subprocess
           (mkRequest argv (_buffer_size p)
              match stdin_ with
              | Some (Buffer _) => Some PIPE
              | Some (Redirect f) => Some f
              | None => None
              end
              (_stdout p) (_stderr p) creationflags);
         do q <- get_self;
         put_self (set_process (Some h) q))
        cls_Exception
        (fun exception => raise (ProcessError exception));
      match stdin_ with
      | Some (Buffer data) =>
          do _ <- stdin; do _ <- Streams.write data;
          do _ <- stdin; do _ <- Streams.drain;
          do _ <- stdin; do _ <- Streams.close;
          when (has_wait_closed w) (do _ <- stdin; Streams.wait_closed)
      | _ => ret tt
      end
  end.

Definition output (join_ : bool) : M bytes :=
  do _ <- when join_ (join None);
  do r <- stdout; do data <- Streams.read r None; do _ <- add_output data;
  do p <- get_self; ret (_output p).

Definition error (join_ : bool) : M bytes :=
  do _ <- when join_ (join None);
  do r <- stderr; do data <- Streams.read r None; do _ <- add_error data;
  do p <- get_self; ret (_error p).

(** The block [close] and [__aexit__] both start with. *)
Definition close_stdin : M unit :=
  suppress [cls_ProcessInvalidStreamError]
    (suppress [cls_BrokenPipeError; cls_ConnectionResetError]
       (do _ <- stdin; do closing <- Streams.is_closing;
        when (negb closing)
          (do _ <- stdin; do _ <- Streams.close;
           do w <- get_world;
           when (has_wait_closed w) (do _ <- stdin; Streams.wait_closed)))).

Definition close : M unit :=
  do _ <- close_stdin;
  do _ <- terminate;
  do _ <- join None;
  do _ <- suppress [cls_ProcessInvalidStreamError]
    (do r <- stdout; do data <- Streams.read r None; add_output data);
  suppress [cls_ProcessInvalidStreamError]
    (do r <- stderr; do data <- Streams.read r None; add_error data).

Definition __aenter__ : M unit := run.

Definition __aexit__ (exception_type : option string) : M unit :=
  do _ <- close_stdin;
  do _ <- when (bool_decide (exception_type = None)) (join None);
  do _ <- suppress [cls_ProcessInvalidStreamError]
    (when (bool_decide (exception_type = None))
       (do r <- stdout; do data <- Streams.read r None; add_output data));
  suppress [cls_ProcessInvalidStreamError]
    (when (bool_decide (exception_type = None))
       (do r <- stderr; do data <- Streams.read r None; add_error data)).

(** Unlike [close], the destructor does not wait for the writer to be
    closed, and it neither joins nor reads. *)
Definition __del__ : M unit :=
  do p <- get_self;
  match _process p with
  | None => ret tt
  | Some _ =>
      do _ <- suppress [cls_ProcessInvalidStreamError]
        (suppress [cls_BrokenPipeError; cls_ConnectionResetError]
           (do _ <- stdin; do closing <- Streams.is_closing;
            when (negb closing) (do _ <- stdin; Streams.close)));
      do alive <- running;
      when alive terminate
  end.

End Async.

(** ** Both execution modes behind one interface *)

Inductive Mode := Blocking | Suspending.

Definition run_in (m : Mode) : M unit :=
  match m with Blocking => Sync.run | Suspending => Async.run end.
Definition join_in (m : Mode) (timeout : option Z) : M unit :=
  match m with Blocking => Sync.join timeout | Suspending => Async.join timeout end.
Definition output_in (m : Mode) (join_ : bool) : M bytes :=
  match m with Blocking => Sync.output join_ | Suspending => Async.output join_ end.
Definition error_in (m : Mode) (join_ : bool) : M bytes :=
  match m with Blocking => Sync.error join_ | Suspending => Async.error join_ end.
Definition close_in (m : Mode) : M unit :=
  match m with Blocking => Sync.close | Suspending => Async.close end.
Definition exit_in (m : Mode) (exception_type : option string) : M unit :=
  match m with
  | Blocking => Sync.__exit__ exception_type
  | Suspending => Async.__aexit__ exception_type
  end.
Definition stdin_in (m : Mode) : M unit :=
  match m with Blocking => Sync.stdin | Suspending => Async.stdin end.
Definition stdout_in (m : Mode) : M Std :=
  match m with Blocking => Sync.stdout | Suspending => Async.stdout end.
Definition stderr_in (m : Mode) : M Std :=
  match m with Blocking => Sync.stderr | Suspending => Async.stderr end.
Definition running_in (m : Mode) : M bool :=
  match m with Blocking => Sync.running | Suspending => Async.running end.
Definition read_in (m : Mode) (which : Std) (n : option nat) : M bytes :=
  match m with Blocking => IO.read which n | Suspending => Streams.read which n end.

(** ** The record in use *)

(** What the owner of a record can do with it: call its methods and
    properties, and use the raw stream handles the properties return. *)
Inductive Call :=
| Run
| Output (join_ : bool)
| Error (join_ : bool)
| Join (timeout : option Z)
| Signal (signal : Z)
| Terminate
| Kill
| Close
| Enter
| Exit (exception_type : option string)
| Id
| Running
| ExitCode
| ReadStdout (n : option nat)
| ReadStderr (n : option nat)
| CloseStdout
| CloseStderr
| WriteStdin (data : bytes)
| CloseStdin.

Definition ignore {A} (c : M A) : M unit := do _ <- c; ret tt.

Definition call (m : Mode) (c : Call) : M unit :=
  match c with
  | Run => run_in m
  | Output j => ignore (output_in m j)
  | Error j => ignore (error_in m j)
  | Join t => join_in m t
  | Signal n => AbstractProcess.signal n
  | Terminate => AbstractProcess.terminate
  | Kill => AbstractProcess.kill
  | Close => close_in m
  | Enter => run_in m
  | Exit e => exit_in m e
  | Id => ignore AbstractProcess.id
  | Running => ignore (running_in m)
  | ExitCode => ignore AbstractProcess.exit_code
  | ReadStdout n => ignore (do r <- stdout_in m; read_in m r n)
  | ReadStderr n => ignore (do r <- stderr_in m; read_in m r n)
  | CloseStdout =>
      do r <- stdout_in m;
      match m with Blocking => IO.reader_close r | Suspending => ret tt end
  | CloseStderr =>
      do r <- stderr_in m;
      match m with Blocking => IO.reader_close r | Suspending => ret tt end
  | WriteStdin data =>
      do _ <- stdin_in m;
      match m with
      | Blocking => IO.write data
      | Suspending => do _ <- Streams.write data; Streams.drain
      end
  | CloseStdin =>
      do _ <- stdin_in m;
      match m with Blocking => IO.writer_close | Suspending => Streams.close end
  end.

(** A configuration is the state together with the addresses of the list
    objects the caller holds a reference to. *)
Definition Config : Type := State * list nat.

(** One step of a program that owns the record: a call or a use of a raw
    stream handle, whether it returns or raises; a read of [arguments],
    which hands the caller the address of the list it returns; an in-place
    mutation of a list the caller holds; the passing of time. *)
Inductive step (m : Mode) : Config -> Config -> Prop :=
| step_call c s held :
    step m (s, held) (snd (call m c s), held)
| step_arguments s held :
    step m (s, held)
      (snd (AbstractProcess.arguments s),
       match fst (AbstractProcess.arguments s) with
       | Returns a => a :: held
       | Raises _ => held
       end)
| step_mutate a l s held :
    a ∈ held ->
    step m (s, held) (snd (mutate a l s), held)
| step_elapse d s held :
    0 <= d ->
    step m (s, held) (mkState (set_now (now (world s) + d) (world s)) (self s), held).

(** The configuration right after construction in world [w]: the caller
    holds every list that existed before. *)
Definition constructed (w : World) (s : State) : Config :=
  (s, seq 0 (length (heap w))).

Definition reachable (m : Mode) (c c' : Config) : Prop := rtc (step m) c c'.

(** A record is spawned when it holds a process object. *)
Definition spawned (s : State) : bool :=
  match _process (self s) with Some _ => true | None => false end.

(** The disposition [run] requests for standard input: [PIPE] for a
    buffer, the [stdin] argument itself otherwise. *)
Definition requested_stdin (stdin_ : option StdinArgument) : option File :=
  match stdin_ with
  | Some (Buffer _) => Some PIPE
  | Some (Redirect f) => Some f
  | None => None
  end.

Definition stdin_disposition (p : Process) : option File :=
  requested_stdin (_stdin p).

(** The creation request [run] submits for the record of state [s]. *)
Definition request_of (s : State) : SpawnRequest :=
  mkRequest (default [] (heap (world s) !! _arguments (self s)))
    (_buffer_size (self s)) (stdin_disposition (self s))
    (_stdout (self s)) (_stderr (self s))
    (if is_windows (world s) then CREATE_NEW_PROCESS_GROUP else 0).

(** The answer of the operating system to that request. *)
Definition answer_of (s : State) : PyError + Child :=
  os_create (world s) (length (requests (world s))) (request_of s).

(** The world once [run] has copied the argument list and submitted its
    request. *)
Definition logged (s : State) : World :=
  set_requests (requests (world s) ++ [request_of s])
    (set_heap (heap (world s) ++ [default [] (heap (world s) !! _arguments (self s))])
       (world s)).

(** The state right after a creation that the operating system answered
    with child [c]. *)
Definition started (s : State) (c : Child) : State :=
  mkState (logged s)
    (set_process (Some (new_popen (now (world s)) (request_of s) c)) (self s)).

(** The statements of [run] that follow a successful creation. *)
Definition feed_in (m : Mode) (w : World) (stdin_ : option StdinArgument) : M unit :=
  match stdin_ with
  | Some (Buffer data) =>
      match m with
      | Blocking =>
          do _ <- Sync.stdin; do _ <- IO.write data;
          do _ <- Sync.stdin; IO.writer_close
      | Suspending =>
          do _ <- Async.stdin; do _ <- Streams.write data;
          do _ <- Async.stdin; do _ <- Streams.drain;
          do _ <- Async.stdin; do _ <- Streams.close;
          when (has_wait_closed w) (do _ <- Async.stdin; Streams.wait_closed)
      end
  | _ => ret tt
  end.


(** ** What stays true of a record in use *)

(** The attributes [__init__] fixes. *)
Definition same_spec (p q : Process) : Prop :=
  _arguments p = _arguments q
  /\ _stdin p = _stdin q
  /\ _stdout p = _stdout q
  /\ _stderr p = _stderr q
  /\ _buffer_size p = _buffer_size q.

Definition present {A} (o : option A) : bool :=
  match o with Some _ => true | None => false end.

(** The process object exposes exactly the streams whose disposition was
    [PIPE]. *)
Definition streams_match (p : Process) (h : Popen) : Prop :=
  present (p_stdin h) = is_PIPE (stdin_disposition p)
  /\ present (p_stdout h) = is_PIPE (_stdout p)
  /\ present (p_stderr h) = is_PIPE (_stderr p).

Definition well_formed (s : State) : Prop :=
  forall h, _process (self s) = Some h -> streams_match (self s) h.

(** What every method guarantees between the state it starts in and the
    state it ends in, whether it returns or raises. *)
Definition extends (s s' : State) : Prop :=
  same_spec (self s) (self s')
  /\ (exists more, heap (world s') = heap (world s) ++ more)
  /\ (well_formed s -> well_formed s').

Definition frames {A} (c : M A) : Prop :=
  forall s, extends s (snd (c s)).

(** The invariant of a record built with attributes [p0] and argument
    tokens [tokens]. *)
Definition Inv (p0 : Process) (tokens : list string) (c : Config) : Prop :=
  same_spec p0 (self (fst c))
  /\ heap (world (fst c)) !! _arguments p0 = Some tokens
  /\ (_arguments p0 ∉ snd c)
  /\ (forall a, a ∈ snd c -> (a < length (heap (world (fst c))))%nat)
  /\ well_formed (fst c).

(** Construction in either mode; [default_buffer_size] is the blocking
    mode's [DEFAULT_BUFFER_SIZE]. *)
Definition init_in (m : Mode) (default_buffer_size : Z) (arguments : Arguments)
    (stdin : option StdinArgument) (stdout stderr : option File)
    (buffer_size : option Z) (w : World) : Exception + State :=
  match m with
  | Blocking => Sync.__init__ default_buffer_size arguments stdin stdout stderr buffer_size w
  | Suspending => Async.__init__ arguments stdin stdout stderr buffer_size w
  end.

(** The resolved token list, in the words of the specification: a string is
    tokenized by shell rules, path-like inputs are converted to strings. *)
Definition resolved_tokens (w : World) (arguments : Arguments) : option (list string) :=
  match arguments with
  | Single (Str s) => shlex_split w s
  | Single (Path p) => Some [p]
  | Sequence l => Some (map AbstractProcess.fspath l)
  end.

(** Reading the elements of the list the [arguments] property returns. *)
Definition read_arguments : M (list string) :=
  do a <- AbstractProcess.arguments; deref a.

(** ** The rest of the interface *)

Definition del_in (m : Mode) : M unit :=
  match m with Blocking => Sync.__del__ | Suspending => Async.__del__ end.

(** [AbstractProcess.__repr__].  The text is
    [f"{type(self).__name__}({', '.join(items)})"]; an item is represented
    by the attribute it names and the value whose [repr] it shows, a stream
    item by the stream alone.  [items] is a local list: a statement that
    raises has appended nothing, so a suppressed block leaves the list as it
    was before the statement that raised. *)
Inductive Item :=
| arguments_item (value : list string)
| id_item (value : Z)
| running_item (value : bool)
| exit_code_item (value : option Z)
| stdin_item
| stdout_item
| stderr_item.

(** [with suppress(...)] around statements that update a local variable:
    [unchanged] is the value of the variable when the block is left by a
    suppressed exception. *)
Definition suppress_local {A} (classes : list ExceptionClass) (unchanged : A)
    (body : M A) : M A :=
  fun s =>
    match body s with
    | (Raises e, s') =>
        if existsb (isinstance e) classes then (Returns unchanged, s') else (Raises e, s')
    | r => r
    end.

Definition repr_in (m : Mode) : M (list Item) :=
  do a <- AbstractProcess.arguments; do argv <- deref a;
  let items := [arguments_item argv] in
  suppress_local [cls_ProcessNotRunError] items
    (do i <- AbstractProcess.id; do alive <- running_in m;
     do code <- AbstractProcess.exit_code;
     let items := items ++ [id_item i; running_item alive; exit_code_item code] in
     do items <- suppress_local [cls_ProcessInvalidStreamError] items
       (do _ <- stdin_in m; ret (items ++ [stdin_item]));
     do items <- suppress_local [cls_ProcessInvalidStreamError] items
       (do _ <- stdout_in m; ret (items ++ [stdout_item]));
     suppress_local [cls_ProcessInvalidStreamError] items
       (do _ <- stderr_in m; ret (items ++ [stderr_item]))).

(** ** Vocabulary of the further properties *)

(** A computation keeps a relation when the state it ends in, returning or
    raising, is related to the state it started in. *)
Definition keeps (R : State -> State -> Prop) {A} (c : M A) : Prop :=
  forall s, R s (snd (c s)).




(** The accumulators only grow. *)
Definition grows (s s' : State) : Prop :=
  (_output (self s) `prefix_of` _output (self s'))
  /\ (_error (self s) `prefix_of` _error (self s')).

(** An exit status is on record only for a child that has exited, and it
    is the status of that child. *)
Definition settled (s : State) : Prop :=
  forall h code, _process (self s) = Some h -> returncode h = Some code ->
    exit_time h <= now (world s) /\ code = exit_status h.

Definition stays_settled (s s' : State) : Prop :=
  now (world s) <= now (world s') /\ (settled s -> settled s').

(** The process object is never dropped nor replaced by that of another
    child, and once there is one no further creation is requested. *)
Definition same_child (s s' : State) : Prop :=
  forall h, _process (self s) = Some h ->
    exists h', _process (self s') = Some h'
               /\ pid h' = pid h
               /\ requests (world s') = requests (world s).



(** The property and the method that serve one of the two output streams. *)
Definition handle_in (m : Mode) (which : Std) : M Std :=
  match which with StdOut => stdout_in m | StdErr => stderr_in m end.

Definition collect_in (m : Mode) (which : Std) (join_ : bool) : M bytes :=
  match which with StdOut => output_in m join_ | StdErr => error_in m join_ end.


(** What every use of a record respects, all at once. *)
Definition lifecycle (s s' : State) : Prop :=
  grows s s' /\ stays_settled s s' /\ same_child s s'.



(** The exit status [poll] would find. *)
Definition polled (s : State) (h : Popen) : option Z :=
  match returncode h with
  | Some code => Some code
  | None => if exit_time h <=? now (world s) then Some (exit_status h) else None
  end.


(** The buffer size a record is built with. *)
Definition chosen_buffer_size (m : Mode) (default_buffer_size : Z)
    (buffer_size : option Z) : Z :=
  match buffer_size with
  | Some b => b
  | None =>
      match m with
      | Blocking => default_buffer_size
      | Suspending => Async.DEFAULT_BUFFER_SIZE
      end
  end.

(** ** Concrete records and worlds *)
Module Examples.


(** A child that writes to both streams and exits with status 0 after
    five ticks. *)
Definition child : Child :=
  mkChild 4242 5 0
    [(StdOut, String.list_byte_of_string "out"); (StdErr, String.list_byte_of_string "err")]
    None None.

(** A host on which every creation succeeds. *)
Definition host : World :=
  mkWorld false true (fun _ => None) 0 [] [] (fun _ _ => inr child).

(** A host that does not find the executable at the first attempt. *)
Definition flaky_host : World :=
  mkWorld false true (fun _ => None) 0 [] []
    (fun n _ => match n with O => inl FileNotFoundError | _ => inr child end).

Definition command : Arguments := Sequence [Str "cat"; Path "notes.txt"].

(** The state [__init__] builds for [command] in world [w]. *)
Definition record (w : World) (stdin : option StdinArgument)
    (stdout stderr : option File) : State :=
  mkState (set_heap (heap w ++ [["cat"; "notes.txt"]%string]) w)
    (mkProcess (length (heap w)) stdin stdout stderr 8192 [] [] None).

(** A record with the default dispositions, never spawned. *)
Definition unspawned : State := record host None (Some PIPE) (Some PIPE).

(** The same record right after [run]. *)
Definition running : State := started unspawned child.

(** A child that has gone away by the time its standard input is
    closed. *)
Definition deaf_child : Child :=
  mkChild 4243 5 0 [(StdErr, String.list_byte_of_string "warn")] None
    (Some BrokenPipeError).

(** A record with all of standard input captured and standard error merged
    into standard output, right after [run]. *)
Definition merged : State :=
  started (record host (Some (Redirect PIPE)) (Some PIPE) (Some STDOUT)) deaf_child.

(** The default record once the child has exited and [output] has drained
    its standard output. *)
Definition drained : State := snd (output_in Blocking true running).



End Examples.

(** * Properties *)

(** ** The scenarios of the test suite, replayed on the model *)

Example init_builds_the_record :
  init_in Blocking 8192 Examples.command None (Some PIPE) (Some PIPE) None Examples.host
  = inr Examples.unspawned
  /\ init_in Suspending 0 Examples.command None (Some PIPE) (Some PIPE) (Some 8192)
       Examples.host
     = inr Examples.unspawned.
Proof. split; reflexivity. Qed.

Example run_gives_running :
  run_in Blocking Examples.unspawned = (Returns tt, Examples.running)
  /\ run_in Suspending Examples.unspawned = (Returns tt, Examples.running).
Proof. split; reflexivity. Qed.

Example join_before_run_is_refused :
  fst (join_in Blocking (Some 1) Examples.unspawned) = Raises ProcessNotRunError.
Proof. reflexivity. Qed.

Example join_after_timeout_succeeds :
  fst (AbstractProcess.exit_code
         (snd (join_in Blocking None (snd (join_in Blocking (Some 3) Examples.running)))))
  = Returns (Some 0).
Proof. reflexivity. Qed.

Example scope_collects_the_output :
  fst (AbstractProcess.exit_code Examples.running) = Returns None
  /\ fst (AbstractProcess.exit_code (snd (exit_in Suspending None Examples.running)))
     = Returns (Some 0)
  /\ fst (output_in Suspending true (snd (exit_in Suspending None Examples.running)))
     = Returns (String.list_byte_of_string "out")
  /\ fst (error_in Blocking true (snd (exit_in Blocking None Examples.running)))
     = Returns (String.list_byte_of_string "err").
Proof. repeat split. Qed.

Example output_consumed_by_others :
  fst (read_in Blocking StdOut (Some 2%nat) Examples.running)
  = Returns (String.list_byte_of_string "ou")
  /\ fst (output_in Blocking true
            (snd (read_in Blocking StdOut (Some 2%nat) Examples.running)))
     = Returns (String.list_byte_of_string "t").
Proof. split; reflexivity. Qed.

Example merged_stderr_arrives_on_stdout :
  fst (output_in Blocking true Examples.merged)
  = Returns (String.list_byte_of_string "warn").
Proof. reflexivity. Qed.

Example close_ends_the_child :
  fst (AbstractProcess.exit_code (snd (close_in Suspending Examples.merged)))
  = Returns (Some (- SIGTERM))
  /\ option_map w_closed (the_writer (snd (close_in Suspending Examples.merged)))
     = Some true.
Proof. split; reflexivity. Qed.

(** ** Spawning *)

Lemma lookup_fresh_address {A} (h : list A) (x : A) : (h ++ [x]) !! length h = Some x.
Proof. induction h as [|y h IH]; [reflexivity | exact IH]. Qed.

Ltac unfold_creation :=
  unfold bind, try_except, AbstractProcess.arguments, get_self, get_world, alloc,
    deref, create_subprocess, put_self; cbn;
  rewrite lookup_fresh_address; cbn.

Lemma run_refused m s e :
  _process (self s) = None ->
  answer_of s = inl e ->
  run_in m s = (Raises (ProcessError (Python e)), mkState (logged s) (self s)).
Proof.
  intros Hp Ha. unfold answer_of, request_of, stdin_disposition, requested_stdin in Ha.
  destruct m; unfold run_in, Sync.run, Async.run; cbn; rewrite Hp;
    unfold_creation; rewrite Ha; reflexivity.
Qed.

Lemma run_started m s c :
  _process (self s) = None ->
  answer_of s = inr c ->
  run_in m s = feed_in m (world s) (_stdin (self s)) (started s c).
Proof.
  intros Hp Ha. unfold answer_of, request_of, stdin_disposition, requested_stdin in Ha.
  destruct m; unfold run_in, Sync.run, Async.run; cbn; rewrite Hp;
    unfold_creation; rewrite Ha; cbn;
    unfold started, logged, request_of, stdin_disposition, requested_stdin, feed_in;
    destruct (_stdin (self s)) as [[data|f]|]; reflexivity.
Qed.

Lemma run_again m s h :
  _process (self s) = Some h ->
  run_in m s = (Raises ProcessAlreadyRunError, s).
Proof.
  intros Hp. destruct m; unfold run_in, Sync.run, Async.run; cbn; rewrite Hp; reflexivity.
Qed.

(** Evaluation of a computation on a state whose shape is known: unfold the
    combinators and the primitives, then split on what is still unknown. *)
Ltac unfold_monad :=
  unfold bind, ret, raise, when, suppress, try_except, raise_if, ignore,
    get_self, get_world, put_self, put_world, modify_writer, modify_reader,
    modify_popen, the_writer, the_reader,
    AbstractProcess.process, AbstractProcess.add_output, AbstractProcess.add_error,
    AbstractProcess.terminate, AbstractProcess.kill, AbstractProcess.signal,
    AbstractProcess.exit_code, send_signal, wait,
    IO.writer_closed, IO.write, IO.writer_close, IO.reader_closed, IO.read,
    IO.reader_close, Streams.is_closing, Streams.write, Streams.drain,
    Streams.close, Streams.wait_closed, Streams.read in *.

Ltac split_match :=
  match goal with
  | H : ?x = _ |- context [match ?x with _ => _ end] => rewrite H
  | |- context [match ?x with _ => _ end] =>
      lazymatch x with
      | context [match _ with _ => _ end] => fail
      | negb ?y => destruct y eqn:?
      | _ => destruct x eqn:?
      end
  end.

Ltac rewrite_known :=
  match goal with
  | H : ?x = ?v |- _ =>
      lazymatch x with
      | true => fail
      | false => fail
      | _ => rewrite H
      end
  end.

Ltac simplify := cbn in *; unfold_monad; cbn in *.

Ltac crunch :=
  simplify; repeat (first [congruence | rewrite_known | split_match]; simplify).

Lemma feed_in_keeps_process m w i s h :
  _process (self s) = Some h ->
  exists h', _process (self (snd (feed_in m w i s))) = Some h'
             /\ returncode h' = returncode h
             /\ world (snd (feed_in m w i s)) = world s.
Proof.
  intros Hp. unfold feed_in.
  destruct i as [[data|f]|]; [destruct m|..];
    unfold Sync.stdin, Async.stdin; crunch; eauto.
Qed.

Lemma feed_in_no_buffer m w i s :
  (forall data, i <> Some (Buffer data)) ->
  feed_in m w i s = (Returns tt, s).
Proof.
  intros Hi. destruct i as [[data|f]|]; try reflexivity.
  exfalso. apply (Hi data). reflexivity.
Qed.

(** C6.  On a record that holds no process object, a [run] whose creation
    request the operating system accepts leaves the record holding a process
    object that has not exited yet (and returns normally when no buffer has to
    be fed); on a record that already holds one, [run] raises
    [ProcessAlreadyRunError] and changes nothing, so no further creation
    request is made.  Both execution modes. *)
Theorem C6_run_once (m : Mode) (s : State) :
  (forall c, _process (self s) = None -> answer_of s = inr c ->
     exists h, _process (self (snd (run_in m s))) = Some h
               /\ returncode h = None
               /\ pid h = c_pid c
               /\ ((forall data, _stdin (self s) <> Some (Buffer data)) ->
                   run_in m s = (Returns tt, started s c)))
  /\ (forall h, _process (self s) = Some h ->
        run_in m s = (Raises ProcessAlreadyRunError, s)).
Proof.
  split.
  - intros c Hp Ha. rewrite (run_started m s c Hp Ha).
    destruct (feed_in_keeps_process m (world s) (_stdin (self s)) (started s c) _ eq_refl)
      as (h' & Hh & Hr & _).
    exists h'. repeat split; [exact Hh | exact Hr | |].
    + revert Hh. unfold feed_in.
      destruct (_stdin (self s)) as [[data|f]|]; [destruct m|..];
        unfold Sync.stdin, Async.stdin; crunch; intros; simplify_eq; reflexivity.
    + intros Hi. apply feed_in_no_buffer. exact Hi.
  - intros h Hp. exact (run_again m s h Hp).
Qed.

Lemma C6_run_once_witness :
  (exists h, _process (self (snd (run_in Blocking Examples.unspawned))) = Some h
             /\ returncode h = None)
  /\ run_in Suspending Examples.running
     = (Raises ProcessAlreadyRunError, Examples.running).
Proof.
  split.
  - destruct (proj1 (C6_run_once Blocking Examples.unspawned) Examples.child
                eq_refl eq_refl) as (h & H1 & H2 & _).
    exists h. split; assumption.
  - exact (proj2 (C6_run_once Suspending Examples.running) _ eq_refl).
Defined.

(** C4.  When the operating system refuses the creation request, [run]
    raises [ProcessError] carrying the underlying exception, and the record is
    exactly what it was: it holds no process object and both accumulators are
    unchanged.  Both execution modes. *)
Theorem C4_failed_spawn_is_atomic (m : Mode) (s : State) (e : PyError) :
  _process (self s) = None ->
  answer_of s = inl e ->
  fst (run_in m s) = Raises (ProcessError (Python e))
  /\ self (snd (run_in m s)) = self s
  /\ _process (self (snd (run_in m s))) = None
  /\ _output (self (snd (run_in m s))) = _output (self s)
  /\ _error (self (snd (run_in m s))) = _error (self s).
Proof.
  intros Hp Ha. rewrite (run_refused m s e Hp Ha). cbn. auto.
Qed.

Lemma C4_failed_spawn_is_atomic_witness :
  fst (run_in Blocking (Examples.record Examples.flaky_host None (Some PIPE) (Some PIPE)))
  = Raises (ProcessError (Python FileNotFoundError))
  /\ _process (self (snd (run_in Blocking
        (Examples.record Examples.flaky_host None (Some PIPE) (Some PIPE))))) = None.
Proof.
  destruct (C4_failed_spawn_is_atomic Blocking
              (Examples.record Examples.flaky_host None (Some PIPE) (Some PIPE))
              FileNotFoundError eq_refl eq_refl) as (H1 & _ & H3 & _).
  split; assumption.
Defined.

(** C3, as the record behaves.  After a [run] that failed because the
    operating system refused the request, the record still holds no process
    object, and a further [run] on it is not rejected: it submits a new
    creation request, and it spawns the child or raises [ProcessError] again
    according to what the operating system answers this time.  Both
    execution modes. *)
Theorem C3_failed_run_can_be_retried (m : Mode) (s : State) (e : PyError) :
  _process (self s) = None ->
  answer_of s = inl e ->
  let s1 := snd (run_in m s) in
  let s2 := snd (run_in m s1) in
  _process (self s1) = None
  /\ requests (world s2) = requests (world s) ++ [request_of s; request_of s1]
  /\ (forall c, answer_of s1 = inr c -> spawned s2 = true)
  /\ (forall e', answer_of s1 = inl e' ->
        fst (run_in m s1) = Raises (ProcessError (Python e'))).
Proof.
  intros Hp Ha. cbn zeta. rewrite (run_refused m s e Hp Ha). cbn [snd].
  set (s1 := mkState (logged s) (self s)).
  assert (Hp1 : _process (self s1) = None) by exact Hp.
  split; [exact Hp1|]. split; [|split].
  - destruct (answer_of s1) as [e'|c] eqn:Ha1.
    + rewrite (run_refused m s1 e' Hp1 Ha1). cbn.
      rewrite <- app_assoc. reflexivity.
    + rewrite (run_started m s1 c Hp1 Ha1).
      destruct (feed_in_keeps_process m (world s1) (_stdin (self s1)) (started s1 c) _ eq_refl)
        as (h' & _ & _ & Hw).
      rewrite Hw. cbn. rewrite <- app_assoc. reflexivity.
  - intros c Ha1. rewrite (run_started m s1 c Hp1 Ha1).
    destruct (feed_in_keeps_process m (world s1) (_stdin (self s1)) (started s1 c) _ eq_refl)
      as (h' & Hh & _ & _).
    unfold spawned. rewrite Hh. reflexivity.
  - intros e' Ha1. rewrite (run_refused m s1 e' Hp1 Ha1). reflexivity.
Qed.

Lemma C3_failed_run_can_be_retried_witness :
  let s := Examples.record Examples.flaky_host None (Some PIPE) (Some PIPE) in
  _process (self (snd (run_in Blocking s))) = None
  /\ spawned (snd (run_in Blocking (snd (run_in Blocking s)))) = true.
Proof.
  intros s.
  destruct (C3_failed_run_can_be_retried Blocking s FileNotFoundError eq_refl eq_refl)
    as (H1 & _ & H3 & _).
  split; [exact H1 | exact (H3 Examples.child eq_refl)].
Defined.

(** C3 as claimed fails.  On a host that refuses the first request and
    accepts the second, the first [run] raises [ProcessError], and the second
    [run] on the same record returns normally with a process object in place,
    two creation requests having been made.  Both execution modes. *)
Lemma C3_second_run_spawns :
  fst (run_in Blocking (Examples.record Examples.flaky_host None (Some PIPE) (Some PIPE)))
  = Raises (ProcessError (Python FileNotFoundError))
  /\ fst (run_in Blocking (snd (run_in Blocking
        (Examples.record Examples.flaky_host None (Some PIPE) (Some PIPE)))))
     = Returns tt
  /\ spawned (snd (run_in Blocking (snd (run_in Blocking
        (Examples.record Examples.flaky_host None (Some PIPE) (Some PIPE))))))
     = true
  /\ length (requests (world (snd (run_in Blocking (snd (run_in Blocking
        (Examples.record Examples.flaky_host None (Some PIPE) (Some PIPE))))))))
     = 2%nat
  /\ fst (run_in Suspending (snd (run_in Suspending
        (Examples.record Examples.flaky_host None (Some PIPE) (Some PIPE)))))
     = Returns tt
  /\ spawned (snd (run_in Suspending (snd (run_in Suspending
        (Examples.record Examples.flaky_host None (Some PIPE) (Some PIPE))))))
     = true.
Proof.
  vm_compute. repeat split.
Qed.



(** ** Teardown *)




(** C2, as the record behaves.  When the scope of a spawned record is left
    by an exception, the exit handler does not join and does not read: both
    accumulators, the clock, the exit status seen so far and the bytes
    waiting in the two output pipes are what they were.  In the
    suspension-capable mode the two readers are left untouched; in the
    blocking mode the handler, when it completes, has closed them. *)
Theorem C2_exit_by_exception (m : Mode) (s : State) (h : Popen) (e : string) :
  _process (self s) = Some h ->
  _output (self (snd (exit_in m (Some e) s))) = _output (self s)
  /\ _error (self (snd (exit_in m (Some e) s))) = _error (self s)
  /\ world (snd (exit_in m (Some e) s)) = world s
  /\ exists h', _process (self (snd (exit_in m (Some e) s))) = Some h'
       /\ returncode h' = returncode h
       /\ exit_time h' = exit_time h
       /\ signals h' = signals h
       /\ option_map r_data (p_stdout h') = option_map r_data (p_stdout h)
       /\ option_map r_data (p_stderr h') = option_map r_data (p_stderr h)
       /\ (m = Suspending -> p_stdout h' = p_stdout h /\ p_stderr h' = p_stderr h)
       /\ (m = Blocking -> fst (exit_in m (Some e) s) = Returns tt ->
           option_map r_closed (p_stdout h') = option_map (fun _ => true) (p_stdout h)
           /\ option_map r_closed (p_stderr h') = option_map (fun _ => true) (p_stderr h)).
Proof.
  intros Hp.
  destruct m; unfold exit_in, Sync.__exit__, Async.__aexit__, Sync.close_stdin,
    Async.close_stdin, Sync.join, Async.join, Sync.stdin, Async.stdin,
    Sync.stdout, Async.stdout, Sync.stderr, Async.stderr;
    crunch; repeat split; try reflexivity; try congruence.
  all: eexists; repeat split; cbn; try reflexivity; try congruence.
  all: repeat rewrite_known; cbn; try reflexivity; try congruence.
Qed.

Lemma C2_exit_by_exception_witness :
  _output (self (snd (exit_in Suspending (Some "KeyboardInterrupt"%string) Examples.running)))
  = []
  /\ world (snd (exit_in Suspending (Some "KeyboardInterrupt"%string) Examples.running))
     = world Examples.running.
Proof.
  destruct (C2_exit_by_exception Suspending Examples.running _ "KeyboardInterrupt"%string
              eq_refl) as (H1 & _ & H3 & _).
  split; [exact H1 | exact H3].
Defined.

(** C2 as claimed fails in the blocking mode.  Left by an exception, the
    exit handler closes the reader of standard output with the child's bytes
    still unread in it: a later raw read raises [ValueError], and [output]
    no longer reaches them. *)
Lemma C2_blocking_exit_closes_readers :
  the_reader StdOut Examples.running
  = Some (mkReader false (String.list_byte_of_string "out"))
  /\ the_reader StdOut (snd (exit_in Blocking (Some "KeyboardInterrupt"%string) Examples.running))
     = Some (mkReader true (String.list_byte_of_string "out"))
  /\ fst (call Blocking (ReadStdout None)
            (snd (exit_in Blocking (Some "KeyboardInterrupt"%string) Examples.running)))
     = Raises (Python ValueError)
  /\ fst (output_in Blocking false
            (snd (exit_in Blocking (Some "KeyboardInterrupt"%string) Examples.running)))
     = Returns [].
Proof.
  vm_compute. repeat split.
Qed.

(** ** Waiting *)

(** C7.  A [join] with a deadline that passes before the child exits raises
    [ProcessTimeoutError] and leaves the record exactly as it was: the
    process object is unchanged (no exit status, no signal sent), only the
    clock has advanced.  From there an unconditional [join] returns, and
    [terminate] and [kill] are accepted.  Both execution modes. *)
Theorem C7_timed_out_join (m : Mode) (s : State) (h : Popen) (d : Z) :
  _process (self s) = Some h ->
  returncode h = None ->
  now (world s) + Z.max 0 d < exit_time h ->
  let s' := mkState (set_now (now (world s) + Z.max 0 d) (world s)) (self s) in
  join_in m (Some d) s = (Raises (ProcessTimeoutError (Some d)), s')
  /\ fst (join_in m None s') = Returns tt
  /\ fst (AbstractProcess.terminate s') = Returns tt
  /\ fst (AbstractProcess.kill s') = Returns tt.
Proof.
  intros Hp Hr Hlt. cbn zeta.
  assert (Hb : (exit_time h <=? now (world s) + Z.max 0 d) = false)
    by (apply Z.leb_gt; exact Hlt).
  destruct m; unfold join_in, Sync.join, Async.join; crunch;
    repeat split; reflexivity.
Qed.

Lemma C7_timed_out_join_witness :
  fst (join_in Blocking (Some 3) Examples.running) = Raises (ProcessTimeoutError (Some 3))
  /\ self (snd (join_in Blocking (Some 3) Examples.running)) = self Examples.running.
Proof.
  destruct (C7_timed_out_join Blocking Examples.running _ 3 eq_refl eq_refl eq_refl)
    as (H & _).
  rewrite H. split; reflexivity.
Defined.

(** ** Reading *)

(** C8.  On a spawned record whose standard output is a pipe with nothing
    left in it, two successive [output(join=True)] both return the
    accumulator as it stands, byte for byte, and leave it unchanged.  Both
    execution modes. *)
Theorem C8_output_twice (m : Mode) (s : State) (h : Popen) (r : Reader) :
  _process (self s) = Some h ->
  exit_time h <= now (world s) ->
  p_stdout h = Some r ->
  r_data r = [] ->
  fst (output_in m true s) = Returns (_output (self s))
  /\ fst (output_in m true (snd (output_in m true s))) = Returns (_output (self s))
  /\ _output (self (snd (output_in m true (snd (output_in m true s))))) = _output (self s).
Proof.
  intros Hp _ Hout Hdata.
  destruct m; unfold output_in, Sync.output, Async.output, Sync.join, Async.join,
    Sync.stdout, Async.stdout; crunch;
    rewrite ?app_nil_r; repeat split; reflexivity.
Qed.

Lemma C8_output_twice_witness :
  fst (output_in Blocking true Examples.drained)
  = Returns (String.list_byte_of_string "out")
  /\ fst (output_in Blocking true (snd (output_in Blocking true Examples.drained)))
     = Returns (String.list_byte_of_string "out").
Proof.
  assert (Hexited : 5 <= 5) by lia.
  destruct (C8_output_twice Blocking Examples.drained _ _ eq_refl Hexited eq_refl eq_refl)
    as (H1 & H2 & _).
  split; [exact H1 | exact H2].
Defined.

(** The accumulator is a cache: whatever a first [output] returns, a second
    one returns again, whether or not the pipe had been drained before. *)
Lemma output_is_repeatable m j s b s1 :
  output_in m j s = (Returns b, s1) ->
  fst (output_in m true s1) = Returns b.
Proof.
  intros H.
  assert (Hs : s1 = snd (output_in m j s)) by (rewrite H; reflexivity).
  assert (Hb : fst (output_in m j s) = Returns b) by (rewrite H; reflexivity).
  subst s1. rewrite <- Hb. clear H. revert Hb.
  destruct m, j; unfold output_in, Sync.output, Async.output, Sync.join, Async.join,
    Sync.stdout, Async.stdout; crunch;
    rewrite ?drop_all, ?take_nil, ?app_nil_r; try reflexivity; try congruence.
Qed.

(** ** Invariants of a record in use *)

Lemma same_spec_refl p : same_spec p p.
Proof. repeat split. Qed.

Lemma same_spec_trans p q r : same_spec p q -> same_spec q r -> same_spec p r.
Proof.
  intros (A1 & A2 & A3 & A4 & A5) (B1 & B2 & B3 & B4 & B5).
  repeat split; congruence.
Qed.

Lemma extends_refl s : extends s s.
Proof.
  split; [apply same_spec_refl|]. split; [|auto].
  exists []. symmetry. apply app_nil_r.
Qed.

Lemma extends_trans s1 s2 s3 : extends s1 s2 -> extends s2 s3 -> extends s1 s3.
Proof.
  intros (A & (m1 & B) & C) (A' & (m2 & B') & C').
  split; [eapply same_spec_trans; eassumption|]. split; [|auto].
  exists (m1 ++ m2). rewrite B', B. symmetry. apply app_assoc.
Qed.

(** A state change that keeps the fixed attributes, only adds list objects
    and keeps the shape of the process object extends the state. *)
Lemma extends_by_shape s s' :
  same_spec (self s) (self s') ->
  (exists more, heap (world s') = heap (world s) ++ more) ->
  (forall h', _process (self s') = Some h' ->
     exists h, _process (self s) = Some h
               /\ present (p_stdin h') = present (p_stdin h)
               /\ present (p_stdout h') = present (p_stdout h)
               /\ present (p_stderr h') = present (p_stderr h)) ->
  extends s s'.
Proof.
  intros Hspec Hheap Hshape. split; [exact Hspec|]. split; [exact Hheap|].
  intros Hwf h' Hh'. destruct (Hshape h' Hh') as (h & Hh & E1 & E2 & E3).
  destruct (Hwf h Hh) as (W1 & W2 & W3).
  destruct Hspec as (_ & S2 & S3 & S4 & _).
  unfold streams_match, stdin_disposition. rewrite E1, E2, E3, <- S2, <- S3, <- S4.
  repeat split; assumption.
Qed.

Lemma frames_ret {A} (a : A) : frames (ret a).
Proof. intros s. apply extends_refl. Qed.

Lemma frames_raise {A} e : frames (@raise A e).
Proof. intros s. apply extends_refl. Qed.

Lemma frames_bind {A B} (c : M A) (k : A -> M B) :
  frames c -> (forall a, frames (k a)) -> frames (bind c k).
Proof.
  intros Hc Hk s. unfold bind. specialize (Hc s).
  destruct (c s) as [[a|e] s1]; cbn in *; [|exact Hc].
  eapply extends_trans; [exact Hc | apply Hk].
Qed.

Lemma frames_when b (c : M unit) : frames c -> frames (when b c).
Proof. intros Hc. destruct b; [exact Hc | apply frames_ret]. Qed.

Lemma frames_suppress classes (c : M unit) : frames c -> frames (suppress classes c).
Proof.
  intros Hc s. unfold suppress. specialize (Hc s).
  destruct (c s) as [[a|e] s1]; cbn in *; [exact Hc|].
  destruct (existsb (isinstance e) classes); exact Hc.
Qed.

Lemma frames_try_except {A} (c : M A) cls handler :
  frames c -> (forall e, frames (handler e)) -> frames (try_except c cls handler).
Proof.
  intros Hc Hh s. unfold try_except. specialize (Hc s).
  destruct (c s) as [[a|e] s1]; cbn in *; [exact Hc|].
  destruct (isinstance e cls); [|exact Hc].
  eapply extends_trans; [exact Hc | apply Hh].
Qed.

Lemma frames_ignore {A} (c : M A) : frames c -> frames (ignore c).
Proof. intros Hc. apply frames_bind; [exact Hc | intros; apply frames_ret]. Qed.

Lemma frames_pure {A} (f : State -> A) : frames (fun s => (Returns (f s), s)).
Proof. intros s. apply extends_refl. Qed.

Lemma frames_modify_popen f :
  (forall h, present (p_stdin (f h)) = present (p_stdin h)
             /\ present (p_stdout (f h)) = present (p_stdout h)
             /\ present (p_stderr (f h)) = present (p_stderr h)) ->
  frames (modify_popen f).
Proof.
  intros Hf s. unfold modify_popen.
  destruct (_process (self s)) as [h|] eqn:Hp; [|apply extends_refl].
  apply extends_by_shape; cbn.
  - repeat split.
  - exists []. symmetry. apply app_nil_r.
  - intros h' Hh'. inversion Hh'; subst h'. exists h. split; [exact Hp | apply Hf].
Qed.

Lemma frames_modify_writer f : frames (modify_writer f).
Proof.
  apply frames_modify_popen. intros h. cbn.
  destruct (p_stdin h); repeat split.
Qed.

Lemma frames_modify_reader which f : frames (modify_reader which f).
Proof.
  apply frames_modify_popen. intros h.
  destruct which; cbn; [destruct (p_stdout h) | destruct (p_stderr h)]; repeat split.
Qed.

Lemma frames_alloc l : frames (alloc l).
Proof.
  intros s. apply extends_by_shape; cbn.
  - apply same_spec_refl.
  - eauto.
  - intros h' Hh'. exists h'. auto.
Qed.

Lemma frames_add_output data : frames (AbstractProcess.add_output data).
Proof.
  intros s. apply extends_by_shape; cbn.
  - repeat split.
  - exists []. symmetry. apply app_nil_r.
  - intros h' Hh'. exists h'. auto.
Qed.

Lemma frames_add_error data : frames (AbstractProcess.add_error data).
Proof.
  intros s. apply extends_by_shape; cbn.
  - repeat split.
  - exists []. symmetry. apply app_nil_r.
  - intros h' Hh'. exists h'. auto.
Qed.

Lemma frames_wait timeout expired : frames (wait timeout expired).
Proof.
  intros s. unfold wait.
  destruct (_process (self s)) as [h|] eqn:Hp; [|apply extends_refl].
  destruct (returncode h); [apply extends_refl|].
  assert (Hexited : extends s
    (mkState (set_now (Z.max (now (world s)) (exit_time h)) (world s))
       (set_process (Some (set_returncode (Some (exit_status h)) h)) (self s)))).
  { apply extends_by_shape; cbn.
    - repeat split.
    - exists []. symmetry. apply app_nil_r.
    - intros h' Hh'. inversion Hh'; subst h'. exists h. cbn. auto. }
  destruct timeout as [d|]; [|exact Hexited].
  destruct (exit_time h <=? now (world s) + Z.max 0 d); [exact Hexited|].
  apply extends_by_shape; cbn.
  - apply same_spec_refl.
  - exists []. symmetry. apply app_nil_r.
  - intros h' Hh'. exists h'. auto.
Qed.

Lemma frames_poll : frames poll.
Proof.
  intros s. unfold poll.
  destruct (_process (self s)) as [h|] eqn:Hp; [|apply extends_refl].
  destruct (returncode h); [apply extends_refl|].
  destruct (exit_time h <=? now (world s)); [|apply extends_refl].
  apply extends_by_shape; cbn.
  - repeat split.
  - exists []. symmetry. apply app_nil_r.
  - intros h' Hh'. inversion Hh'; subst h'. exists h. cbn. auto.
Qed.

Lemma frames_send_signal signal : frames (send_signal signal).
Proof.
  unfold send_signal. apply frames_bind; [apply (frames_pure world)|].
  intros w. apply frames_modify_popen. intros h.
  destruct (returncode h); [auto|].
  destruct (((signal =? SIGTERM) || (signal =? SIGKILL)) && (now w <? exit_time h));
    cbn; auto.
Qed.

Ltac unfold_methods :=
  unfold call, run_in, join_in, output_in, error_in, close_in, exit_in, stdin_in,
    stdout_in, stderr_in, read_in, running_in, feed_in,
    Sync.running, Async.running, Sync.join, Sync.output, Sync.error, Sync.close, Sync.close_stdin, Sync.__exit__,
    Sync.stdin, Sync.stdout, Sync.stderr,
    Async.join, Async.output, Async.error, Async.close, Async.close_stdin,
    Async.__aexit__, Async.stdin, Async.stdout, Async.stderr,
    AbstractProcess.id, AbstractProcess.exit_code, AbstractProcess.signal,
    AbstractProcess.terminate, AbstractProcess.kill, AbstractProcess.process,
    IO.writer_closed, IO.write, IO.writer_close, IO.reader_closed, IO.read,
    IO.reader_close, Streams.is_closing, Streams.write, Streams.drain,
    Streams.close, Streams.wait_closed, Streams.read,
    raise_if, deref, get_self, get_world.

Ltac framing :=
  repeat first
    [ apply frames_ret | apply frames_raise | apply frames_pure
    | apply frames_modify_writer | apply frames_modify_reader | apply frames_alloc
    | apply frames_add_output | apply frames_add_error | apply frames_wait
    | apply frames_send_signal | apply frames_poll
    | apply frames_bind; [|intros ?] | apply frames_when | apply frames_suppress
    | apply frames_try_except; [|intros ?] | apply frames_ignore
    | match goal with |- frames (match ?x with _ => _ end) => destruct x end
    | progress unfold_methods ].

Lemma frames_feed_in m w i : frames (feed_in m w i).
Proof. unfold_methods. framing. Qed.

Lemma extends_started s c : extends s (started s c).
Proof.
  split; [repeat split|]. split; [cbn; eauto|].
  intros _ h' Hh'. cbn in Hh'. inversion Hh'; subst h'. clear Hh'.
  unfold streams_match, new_popen, request_of, stdin_disposition. cbn.
  destruct (is_PIPE _), (is_PIPE (_stdout (self s))), (is_PIPE (_stderr (self s)));
    repeat split.
Qed.

Lemma frames_run_in m : frames (run_in m).
Proof.
  intros s. destruct (_process (self s)) as [h|] eqn:Hp.
  - rewrite (run_again m s h Hp). apply extends_refl.
  - destruct (answer_of s) as [e|c] eqn:Ha.
    + rewrite (run_refused m s e Hp Ha). cbn.
      apply extends_by_shape; cbn.
      * apply same_spec_refl.
      * eauto.
      * intros h' Hh'. exists h'. auto.
    + rewrite (run_started m s c Hp Ha).
      eapply extends_trans; [apply extends_started | apply frames_feed_in].
Qed.

Lemma frames_call m c : frames (call m c).
Proof.
  destruct c; try apply frames_run_in; destruct m; unfold_methods; framing.
Qed.

Lemma frames_arguments : frames AbstractProcess.arguments.
Proof. unfold AbstractProcess.arguments. unfold_methods. framing. Qed.

(** Construction establishes the invariant. *)
Lemma init_in_establishes m dflt a i o e b w s0 :
  init_in m dflt a i o e b w = inr s0 ->
  exists tokens,
    resolved_tokens w a = Some tokens
    /\ Inv (self s0) tokens (constructed w s0)
    /\ _stdin (self s0) = i /\ _stdout (self s0) = o /\ _stderr (self s0) = e
    /\ _process (self s0) = None
    /\ _output (self s0) = [] /\ _error (self s0) = [].
Proof.
  unfold init_in, Sync.__init__, Async.__init__, AbstractProcess.__init__.
  intros H.
  assert (Hgen : forall arguments b',
    match arguments with
    | inl e0 => inl e0
    | inr arguments =>
        match b' with
        | None => inl (Python ValueError)
        | Some buffer_size =>
            inr (mkState (set_heap (heap w ++ [map AbstractProcess.fspath arguments]) w)
                   (mkProcess (length (heap w)) i o e buffer_size [] [] None))
        end
    end = inr s0 ->
    exists l, arguments = inr l
      /\ Inv (self s0) (map AbstractProcess.fspath l) (constructed w s0)
      /\ _stdin (self s0) = i /\ _stdout (self s0) = o /\ _stderr (self s0) = e
      /\ _process (self s0) = None
      /\ _output (self s0) = [] /\ _error (self s0) = []).
  { intros [e0|l] [bs|] Heq; try discriminate. inversion Heq; subst s0. clear Heq.
    exists l. split; [reflexivity|]. split; [|cbn; repeat split].
    unfold Inv, constructed. cbn. split; [apply same_spec_refl|].
    split; [apply lookup_fresh_address|]. split; [|split].
    - rewrite elem_of_seq. lia.
    - intros x Hx. rewrite elem_of_seq in Hx. rewrite length_app. cbn. lia.
    - intros h Hh. discriminate. }
  assert (Hmap : forall l : list string, map AbstractProcess.fspath (map Str l) = l).
  { induction l as [|x l IH]; cbn; [reflexivity | rewrite IH; reflexivity]. }
  destruct m;
    (apply Hgen in H; destruct H as (l & Hl & HI & Hrest);
     destruct a as [[str|path]|l0]; cbn in *;
     [ destruct (shlex_split w str) as [toks|]; [|discriminate];
       inversion Hl; subst l; rewrite Hmap in HI; eauto
     | inversion Hl; subst l; eauto
     | inversion Hl; subst l; eauto ]).
Qed.

(** Every step of the owner keeps the invariant. *)
Lemma extends_keeps_Inv p0 tokens s s' held :
  Inv p0 tokens (s, held) -> extends s s' -> Inv p0 tokens (s', held).
Proof.
  intros (I1 & I2 & I3 & I4 & I5) (E1 & (more & E2) & E3). unfold Inv in *. cbn in *.
  split; [eapply same_spec_trans; eassumption|].
  split; [rewrite E2; apply lookup_app_l_Some; exact I2|].
  split; [exact I3|]. split; [|auto].
  intros x Hx. rewrite E2, length_app. specialize (I4 x Hx). lia.
Qed.

Lemma step_keeps_Inv m p0 tokens c c' :
  Inv p0 tokens c -> step m c c' -> Inv p0 tokens c'.
Proof.
  intros HI Hstep. destruct Hstep as [cl s held | s held | a l s held Ha | d s held Hd].
  - eapply extends_keeps_Inv; [exact HI | apply frames_call].
  - pose proof (extends_keeps_Inv _ _ _ _ _ HI (frames_arguments s)) as HI'.
    destruct HI as (I1 & I2 & I3 & I4 & I5).
    destruct HI' as (J1 & J2 & J3 & J4 & J5). cbn in *.
    unfold Inv. cbn.
    split; [exact J1|]. split; [exact J2|]. split; [|split; [|exact J5]].
    + intros Hin. apply elem_of_cons in Hin as [Heq | Hin]; [|exact (I3 Hin)].
      apply lookup_lt_Some in I2. lia.
    + intros x Hx. rewrite length_app. cbn.
      apply elem_of_cons in Hx as [Heq | Hx]; [lia | specialize (I4 x Hx); lia].
  - destruct HI as (I1 & I2 & I3 & I4 & I5). unfold Inv in *. cbn in *.
    split; [exact I1|]. split; [|split; [exact I3|split; [|exact I5]]].
    + rewrite list_lookup_insert_ne; [exact I2|]. intros Heq. subst a. exact (I3 Ha).
    + intros x Hx. rewrite length_insert. exact (I4 x Hx).
  - exact HI.
Qed.

Lemma reachable_keeps_Inv m p0 tokens c c' :
  Inv p0 tokens c -> reachable m c c' -> Inv p0 tokens c'.
Proof.
  intros HI Hreach. induction Hreach as [c | c c1 c2 Hstep _ IH]; [exact HI|].
  apply IH. eapply step_keeps_Inv; eassumption.
Qed.

Lemma present_false {A} (o : option A) : present o = false -> o = None.
Proof. destruct o; [discriminate | reflexivity]. Qed.

Lemma STDOUT_is_not_PIPE : is_PIPE (Some STDOUT) = false.
Proof. reflexivity. Qed.

(** ** Stream access *)

(** C9.  Take a record built by [__init__] and used in any way.  Once it
    holds a process object, every stream whose disposition was not [PIPE]
    (standard input counts as [PIPE] when a buffer was given; standard error
    merged into standard output does not) makes its property raise
    [ProcessInvalidStreamError], and [output] and [error] raise it as well,
    with or without [join].  As long as it holds none, all of them raise
    [ProcessNotRunError].  Both execution modes. *)
Theorem C9_invalid_stream (m : Mode) (dflt : Z) (a : Arguments)
    (i : option StdinArgument) (o e : option File) (b : option Z)
    (w : World) (s0 s : State) (held : list nat) :
  init_in m dflt a i o e b w = inr s0 ->
  reachable m (constructed w s0) (s, held) ->
  (spawned s = true ->
     (is_PIPE (requested_stdin i) = false ->
        stdin_in m s = (Raises ProcessInvalidStreamError, s))
     /\ (is_PIPE o = false ->
           stdout_in m s = (Raises ProcessInvalidStreamError, s)
           /\ forall j, fst (output_in m j s) = Raises ProcessInvalidStreamError)
     /\ (is_PIPE e = false ->
           stderr_in m s = (Raises ProcessInvalidStreamError, s)
           /\ forall j, fst (error_in m j s) = Raises ProcessInvalidStreamError)
     /\ (e = Some STDOUT ->
           forall j, fst (error_in m j s) = Raises ProcessInvalidStreamError))
  /\ (spawned s = false ->
        stdin_in m s = (Raises ProcessNotRunError, s)
        /\ stdout_in m s = (Raises ProcessNotRunError, s)
        /\ stderr_in m s = (Raises ProcessNotRunError, s)
        /\ (forall j, output_in m j s = (Raises ProcessNotRunError, s))
        /\ (forall j, error_in m j s = (Raises ProcessNotRunError, s))).
Proof.
  intros Hinit Hreach.
  destruct (init_in_establishes _ _ _ _ _ _ _ _ _ Hinit)
    as (tokens & _ & HI & Hi & Ho & He & _).
  pose proof (reachable_keeps_Inv _ _ _ _ _ HI Hreach) as (Hspec & _ & _ & _ & Hwf).
  cbn in Hspec, Hwf. destruct Hspec as (_ & S2 & S3 & S4 & _).
  unfold spawned. split.
  - destruct (_process (self s)) as [h|] eqn:Hp; [intros _ | discriminate].
    destruct (Hwf h Hp) as (W1 & W2 & W3).
    unfold stdin_disposition in *. rewrite <- S2, Hi in W1. rewrite <- S3, Ho in W2.
    rewrite <- S4, He in W3.
    assert (Herr : is_PIPE e = false ->
      stderr_in m s = (Raises ProcessInvalidStreamError, s)
      /\ forall j, fst (error_in m j s) = Raises ProcessInvalidStreamError).
    { intros Hn. rewrite Hn in W3. apply present_false in W3.
      split; [|intros j]; destruct m; try destruct j;
        unfold stderr_in, error_in, Sync.error, Async.error, Sync.join, Async.join,
          Sync.stderr, Async.stderr; crunch; reflexivity. }
    split; [|split; [|split]].
    + intros Hn. rewrite Hn in W1. apply present_false in W1.
      destruct m; unfold stdin_in, Sync.stdin, Async.stdin; crunch; reflexivity.
    + intros Hn. rewrite Hn in W2. apply present_false in W2.
      split; [|intros j]; destruct m; try destruct j;
        unfold stdout_in, output_in, Sync.output, Async.output, Sync.join, Async.join,
          Sync.stdout, Async.stdout; crunch; reflexivity.
    + exact Herr.
    + intros Hmerge. apply Herr. rewrite Hmerge. apply STDOUT_is_not_PIPE.
  - destruct (_process (self s)) as [h|] eqn:Hp; [discriminate | intros _].
    repeat split; try intros j; destruct m; try destruct j;
      unfold stdin_in, stdout_in, stderr_in, output_in, error_in,
        Sync.output, Async.output, Sync.error, Async.error, Sync.join, Async.join,
        Sync.stdin, Async.stdin, Sync.stdout, Async.stdout, Sync.stderr, Async.stderr;
      crunch; reflexivity.
Qed.

Lemma C9_invalid_stream_witness :
  (forall j,
     fst (error_in Blocking j
            (snd (call Blocking Run
                    (Examples.record Examples.host None (Some PIPE) (Some STDOUT)))))
     = Raises ProcessInvalidStreamError)
  /\ stdout_in Blocking (Examples.record Examples.host None (Some PIPE) (Some STDOUT))
     = (Raises ProcessNotRunError,
        Examples.record Examples.host None (Some PIPE) (Some STDOUT)).
Proof.
  split.
  - assert (Hreach : reachable Blocking
      (constructed Examples.host
         (Examples.record Examples.host None (Some PIPE) (Some STDOUT)))
      (snd (call Blocking Run
              (Examples.record Examples.host None (Some PIPE) (Some STDOUT))),
       seq 0 (length (heap Examples.host)))).
    { eapply rtc_l; [apply (step_call Blocking Run) | apply rtc_refl]. }
    destruct (C9_invalid_stream Blocking 8192 Examples.command None (Some PIPE)
                (Some STDOUT) None Examples.host _ _ _ eq_refl Hreach) as [Hs _].
    destruct (Hs eq_refl) as (_ & _ & _ & Hmerged).
    exact (Hmerged eq_refl).
  - assert (Hreach : reachable Blocking
      (constructed Examples.host
         (Examples.record Examples.host None (Some PIPE) (Some STDOUT)))
      (Examples.record Examples.host None (Some PIPE) (Some STDOUT),
       seq 0 (length (heap Examples.host)))).
    { apply rtc_refl. }
    destruct (C9_invalid_stream Blocking 8192 Examples.command None (Some PIPE)
                (Some STDOUT) None Examples.host _ _ _ eq_refl Hreach) as [_ Hu].
    destruct (Hu eq_refl) as (_ & Hout & _).
    exact Hout.
Defined.

(** ** The argument vector *)

Lemma requests_after_run m s :
  _process (self s) = None ->
  requests (world (snd (run_in m s))) = requests (world s) ++ [request_of s].
Proof.
  intros Hp. destruct (answer_of s) as [e|c] eqn:Ha.
  - rewrite (run_refused m s e Hp Ha). reflexivity.
  - rewrite (run_started m s c Hp Ha).
    destruct (feed_in_keeps_process m (world s) (_stdin (self s)) (started s c) _ eq_refl)
      as (h' & _ & _ & Hw).
    rewrite Hw. reflexivity.
Qed.

(** C10.  Take a record built by [__init__] and used in any way, the caller
    being free to mutate every list it holds, those the [arguments] property
    returned included.  The record's argument vector is still the token list
    resolved at construction (a string split by [shlex.split], path-like
    items passed through [fspath]).  The property returns those tokens in a
    list object that did not exist before the call, which therefore is
    neither the record's own list nor one the caller already held; after any
    mutation of the returned list, the property still returns the same
    tokens, and they are the vector [run] hands to the operating system.
    Both execution modes. *)
Theorem C10_arguments_are_fixed (m : Mode) (dflt : Z) (a : Arguments)
    (i : option StdinArgument) (o e : option File) (b : option Z)
    (w : World) (s0 s : State) (held : list nat) :
  init_in m dflt a i o e b w = inr s0 ->
  reachable m (constructed w s0) (s, held) ->
  exists tokens,
    resolved_tokens w a = Some tokens
    /\ heap (world s) !! _arguments (self s) = Some tokens
    /\ fst (read_arguments s) = Returns tokens
    /\ fst (AbstractProcess.arguments s) = Returns (length (heap (world s)))
    /\ length (heap (world s)) <> _arguments (self s)
    /\ (length (heap (world s)) ∉ held)
    /\ (forall l,
         let s' := snd (mutate (length (heap (world s))) l
                          (snd (AbstractProcess.arguments s))) in
         heap (world s') !! length (heap (world s)) = Some l
         /\ fst (read_arguments s') = Returns tokens
         /\ rq_args (request_of s') = tokens)
    /\ rq_args (request_of s) = tokens
    /\ (spawned s = false ->
        exists rq, requests (world (snd (run_in m s))) = requests (world s) ++ [rq]
                   /\ rq_args rq = tokens).
Proof.
  intros Hinit Hreach.
  destruct (init_in_establishes _ _ _ _ _ _ _ _ _ Hinit) as (tokens & Hres & HI & _).
  pose proof (reachable_keeps_Inv _ _ _ _ _ HI Hreach) as (Hspec & Hargs & Hnot & Hlt & _).
  cbn in Hspec, Hargs, Hnot, Hlt. destruct Hspec as (S1 & _).
  exists tokens. rewrite <- S1.
  pose proof (lookup_lt_Some _ _ _ Hargs) as Hbound.
  split; [exact Hres|]. split; [exact Hargs|].
  assert (Hrq : rq_args (request_of s) = tokens).
  { unfold request_of. cbn. rewrite <- S1, Hargs. reflexivity. }
  split; [|split; [reflexivity|split; [lia|split; [|split; [|split; [exact Hrq|]]]]]].
  - unfold read_arguments, AbstractProcess.arguments, bind, get_self, deref, alloc. cbn.
    rewrite <- S1, Hargs. cbn. rewrite lookup_fresh_address. reflexivity.
  - intros Hin. specialize (Hlt _ Hin). lia.
  - intros l. cbn zeta.
    unfold read_arguments, AbstractProcess.arguments, bind, get_self, deref, alloc,
      mutate, request_of. cbn. rewrite <- S1, Hargs. cbn.
    assert (Hkept : <[length (heap (world s)) := l]> (heap (world s) ++ [tokens])
                    !! _arguments (self s0) = Some tokens).
    { rewrite list_lookup_insert_ne by lia. apply lookup_app_l_Some. exact Hargs. }
    rewrite Hkept. cbn. rewrite lookup_fresh_address. cbn.
    split; [|split; reflexivity].
    apply list_lookup_insert_eq. rewrite length_app. cbn. lia.
  - unfold spawned. destruct (_process (self s)) eqn:Hp; [discriminate|]. intros _.
    exists (request_of s). split; [apply requests_after_run; exact Hp | exact Hrq].
Qed.

Lemma C10_arguments_are_fixed_witness :
  fst (read_arguments
         (snd (mutate 1 ["rm"%string] (snd (AbstractProcess.arguments Examples.unspawned)))))
  = Returns ["cat"; "notes.txt"]%string.
Proof.
  assert (Hreach : reachable Suspending
    (constructed Examples.host Examples.unspawned)
    (snd (mutate 1 ["rm"%string] (snd (AbstractProcess.arguments Examples.unspawned))),
     [1%nat])).
  { eapply rtc_l; [apply (step_arguments Suspending)|].
    eapply rtc_l; [|apply rtc_refl].
    apply (step_mutate Suspending 1 ["rm"%string]). apply list_elem_of_here. }
  destruct (C10_arguments_are_fixed Suspending 0 Examples.command None (Some PIPE)
              (Some PIPE) (Some 8192) Examples.host _ _ _ eq_refl Hreach)
    as (tokens & Hres & _ & Hread & _).
  inversion Hres; subst tokens. exact Hread.
Defined.

(** * Further properties of the interface *)

(** ** Tactics and record equality *)

Ltac open_methods :=
  repeat (progress (unfold del_in, repr_in, Sync.__del__, Async.__del__, poll,
                      suppress_local, handle_in, collect_in;
                    unfold_methods)).

Ltac unfold_goal :=
  unfold ignore,
    AbstractProcess.terminate, AbstractProcess.kill, AbstractProcess.signal,
    AbstractProcess.exit_code, AbstractProcess.id, AbstractProcess.process,
    AbstractProcess.add_output, AbstractProcess.add_error,
    IO.writer_closed, IO.write, IO.writer_close, IO.reader_closed, IO.read,
    IO.reader_close, Streams.is_closing, Streams.write, Streams.drain,
    Streams.close, Streams.wait_closed, Streams.read,
    send_signal, wait, poll, modify_writer, modify_reader, modify_popen,
    the_writer, the_reader, when, suppress, suppress_local, try_except, raise_if,
    get_self, get_world, put_self, put_world, bind, ret, raise.

(** Evaluation in the goal alone. *)
Ltac run_goal :=
  cbn; unfold_goal; cbn;
  repeat (first [rewrite_known | split_match | congruence]; cbn; unfold_goal; cbn).


(** Evaluate [c s] once, with the property to prove about its result set
    aside meanwhile. *)
Ltac evaluating c s :=
  let res := fresh "res" in let s' := fresh "s'" in let E := fresh "E" in
  let P := fresh "P" in
  destruct (c s) as [res s'] eqn:E; cbn [fst snd];
  pattern res, s';
  match goal with |- ?Q _ _ => set (P := Q) end;
  revert E.

(** Bring every projection to one form, so that the equations found while
    evaluating rewrite the property. *)
Ltac canonical :=
  try unfold r_closed in *; try unfold r_data in *; try unfold w_closed in *;
  try unfold w_data in *; try unfold returncode in *; try unfold p_stdin in *;
  try unfold p_stdout in *; try unfold p_stderr in *; try unfold exit_time in *;
  try unfold exit_status in *; try unfold signals in *; try unfold _process in *;
  try unfold self in *; try unfold world in *; try unfold now in *;
  try unfold _output in *; try unfold _error in *.

Ltac tidy_lists :=
  repeat (progress rewrite ?firstn_all, ?drop_all, ?app_nil_r);
  rewrite <- ?app_assoc; rewrite ?app_nil_r.

Ltac finish :=
  let E := fresh "E" in
  intros E; injection E as <- <-;
  match goal with P := _ |- _ => subst P end;
  cbn; canonical; repeat (rewrite_known; cbn);
  tidy_lists; repeat split; reflexivity.










(** ** Before the spawn *)

(** X1.  On a record that holds no process object, [join], [signal],
    [terminate], [kill], [id], [exit_code], [running] and the exit handler
    raise [ProcessNotRunError] and leave the state as it is; the destructor
    returns at once.  Both execution modes. *)
Theorem unspawned_record_refuses (m : Mode) (s : State) :
  _process (self s) = None ->
  (forall timeout, join_in m timeout s = (Raises ProcessNotRunError, s))
  /\ (forall n, AbstractProcess.signal n s = (Raises ProcessNotRunError, s))
  /\ AbstractProcess.terminate s = (Raises ProcessNotRunError, s)
  /\ AbstractProcess.kill s = (Raises ProcessNotRunError, s)
  /\ AbstractProcess.id s = (Raises ProcessNotRunError, s)
  /\ AbstractProcess.exit_code s = (Raises ProcessNotRunError, s)
  /\ running_in m s = (Raises ProcessNotRunError, s)
  /\ (forall e, exit_in m e s = (Raises ProcessNotRunError, s))
  /\ del_in m s = (Returns tt, s).
Proof.
  intros Hp.
  repeat split; try intros ?; destruct m; open_methods; crunch; reflexivity.
Qed.

Lemma unspawned_record_refuses_witness :
  AbstractProcess.kill Examples.unspawned = (Raises ProcessNotRunError, Examples.unspawned)
  /\ del_in Suspending Examples.unspawned = (Returns tt, Examples.unspawned).
Proof.
  destruct (unspawned_record_refuses Suspending Examples.unspawned eq_refl)
    as (_ & _ & _ & Hkill & _ & _ & _ & _ & Hdel).
  split; [exact Hkill | exact Hdel].
Defined.

(** What construction yields. *)
Lemma init_in_result (m : Mode) (dflt : Z) (a : Arguments) (i : option StdinArgument)
    (o e : option File) (b : option Z) (w : World) :
  init_in m dflt a i o e b w
  = match resolved_tokens w a with
    | None => inl (Python ValueError)
    | Some tokens =>
        inr (mkState (set_heap (heap w ++ [tokens]) w)
               (mkProcess (length (heap w)) i o e (chosen_buffer_size m dflt b) [] [] None))
    end.
Proof.
  assert (Hmap : forall l : list string, map AbstractProcess.fspath (map Str l) = l).
  { induction l as [|x l IH]; cbn; [reflexivity | rewrite IH; reflexivity]. }
  unfold init_in, Sync.__init__, Async.__init__, AbstractProcess.__init__,
    resolved_tokens, chosen_buffer_size.
  destruct m, b, a as [[str|path]|l]; cbn;
    try destruct (shlex_split w str); rewrite ?Hmap; reflexivity.
Qed.

(** X15.  Construction through either class fails exactly when
    [shlex.split] rejects a string argument, with [ValueError]; otherwise it
    yields an unspawned record with empty accumulators, the resolved tokens
    in a list of its own, the three dispositions as given, and the buffer
    size given or else the default of the mode.  The [ValueError] the base
    class keeps for a missing buffer size is never raised. *)
Theorem construction_result (m : Mode) (dflt : Z) (a : Arguments)
    (i : option StdinArgument) (o e : option File) (b : option Z) (w : World) :
  init_in m dflt a i o e b w
  = match resolved_tokens w a with
    | None => inl (Python ValueError)
    | Some tokens =>
        inr (mkState (set_heap (heap w ++ [tokens]) w)
               (mkProcess (length (heap w)) i o e (chosen_buffer_size m dflt b) [] [] None))
    end.
Proof. exact (init_in_result m dflt a i o e b w). Qed.

(** ** Spawning, once more *)

(** X16.  [run] on a record that holds no process object submits exactly
    one creation request: the argument tokens, the buffer size and the
    dispositions of standard output and error as the record has them,
    [PIPE] for standard input when that is a buffer, and
    [CREATE_NEW_PROCESS_GROUP] as creation flag on Windows, [0] elsewhere.
    Both execution modes. *)
Theorem run_request (m : Mode) (s : State) :
  _process (self s) = None ->
  requests (world (snd (run_in m s)))
  = requests (world s)
    ++ [mkRequest (default [] (heap (world s) !! _arguments (self s)))
          (_buffer_size (self s)) (requested_stdin (_stdin (self s)))
          (_stdout (self s)) (_stderr (self s))
          (if is_windows (world s) then CREATE_NEW_PROCESS_GROUP else 0)].
Proof. intros Hp. exact (requests_after_run m s Hp). Qed.

Lemma run_request_witness :
  requests (world (snd (run_in Blocking Examples.unspawned)))
  = [mkRequest ["cat"; "notes.txt"]%string 8192 None (Some PIPE) (Some PIPE) 0].
Proof. exact (run_request Blocking Examples.unspawned eq_refl). Defined.



(** ** Reading *)








(** ** Waiting and signalling *)



(** X20.  In the blocking mode [running] polls: it answers whether the
    child has exited by now, and puts the exit status on record when it
    has; in the suspension-capable mode it only tells whether a status is on
    record, and changes nothing. *)
Theorem running_polls (m : Mode) (s : State) (h : Popen) :
  _process (self s) = Some h ->
  match m with
  | Blocking =>
      fst (running_in m s) = Returns (negb (present (polled s h)))
      /\ option_map returncode (_process (self (snd (running_in m s))))
         = Some (polled s h)
      /\ world (snd (running_in m s)) = world s
  | Suspending =>
      running_in m s = (Returns (negb (present (returncode h))), s)
  end.
Proof.
  intros Hp. unfold polled. destruct m.
  - evaluating (running_in Blocking) s. open_methods; run_goal; finish.
  - open_methods; run_goal; reflexivity.
Qed.

Lemma running_polls_witness :
  fst (running_in Blocking Examples.running) = Returns true
  /\ running_in Suspending Examples.running = (Returns true, Examples.running).
Proof.
  split.
  - exact (proj1 (running_polls Blocking Examples.running _ eq_refl)).
  - exact (running_polls Suspending Examples.running _ eq_refl).
Defined.



(** ** Teardown, once more *)











(** ** Display *)

(** X14.  [__repr__] never raises.  It always shows the argument tokens;
    for a record that holds a process object it shows, after them, the pid,
    whether the child is running, the exit status, and then exactly those of
    [stdin], [stdout], [stderr] that are pipes, in this order.  In the
    blocking mode the running flag and the exit status are those a poll
    finds at that moment.  Both execution modes. *)
Theorem repr_items (m : Mode) (s : State) :
  fst (repr_in m s)
  = Returns
      (arguments_item (default [] (heap (world s) !! _arguments (self s)))
       :: match _process (self s) with
          | None => []
          | Some h =>
              let code :=
                match m with Blocking => polled s h | Suspending => returncode h end in
              [id_item (pid h); running_item (negb (present code)); exit_code_item code]
              ++ (if present (p_stdin h) then [stdin_item] else [])
              ++ (if present (p_stdout h) then [stdout_item] else [])
              ++ (if present (p_stderr h) then [stderr_item] else [])
          end).
Proof.
  unfold polled. unfold repr_in, AbstractProcess.arguments, alloc.
  destruct m; open_methods; run_goal; rewrite ?lookup_fresh_address; cbn;
    run_goal; reflexivity.
Qed.

(** ** What every use of a record respects *)

Lemma lifecycle_refl s : lifecycle s s.
Proof.
  split; [split; reflexivity|]. split; [split; [lia | auto]|].
  intros h Hh. eauto.
Qed.

Lemma lifecycle_trans s1 s2 s3 : lifecycle s1 s2 -> lifecycle s2 s3 -> lifecycle s1 s3.
Proof.
  intros ((G1 & G2) & (T1 & T2) & C1) ((G1' & G2') & (T1' & T2') & C1').
  split; [split; etrans; eassumption|]. split; [split; [lia | auto]|].
  intros h Hh. destruct (C1 h Hh) as (h' & Hh' & Hpid & Hrq).
  destruct (C1' h' Hh') as (h'' & Hh'' & Hpid' & Hrq'). exists h''.
  split; [exact Hh'' | split; congruence].
Qed.

Lemma lifecycle_ret {A} (a : A) : keeps lifecycle (ret a).
Proof. intros s. apply lifecycle_refl. Qed.

Lemma lifecycle_raise {A} e : keeps lifecycle (@raise A e).
Proof. intros s. apply lifecycle_refl. Qed.

Lemma lifecycle_pure {A} (f : State -> A) : keeps lifecycle (fun s => (Returns (f s), s)).
Proof. intros s. apply lifecycle_refl. Qed.

Lemma lifecycle_bind {A B} (c : M A) (k : A -> M B) :
  keeps lifecycle c -> (forall a, keeps lifecycle (k a)) -> keeps lifecycle (bind c k).
Proof.
  intros Hc Hk s. unfold bind. specialize (Hc s).
  destruct (c s) as [[a|e] s1]; cbn in *; [|exact Hc].
  eapply lifecycle_trans; [exact Hc | apply Hk].
Qed.

Lemma lifecycle_when b (c : M unit) : keeps lifecycle c -> keeps lifecycle (when b c).
Proof. intros Hc. destruct b; [exact Hc | apply lifecycle_ret]. Qed.

Lemma lifecycle_suppress classes (c : M unit) :
  keeps lifecycle c -> keeps lifecycle (suppress classes c).
Proof.
  intros Hc s. unfold suppress. specialize (Hc s).
  destruct (c s) as [[a|e] s1]; cbn in *; [exact Hc|].
  destruct (existsb (isinstance e) classes); exact Hc.
Qed.

Lemma lifecycle_suppress_local {A} classes (x : A) (c : M A) :
  keeps lifecycle c -> keeps lifecycle (suppress_local classes x c).
Proof.
  intros Hc s. unfold suppress_local. specialize (Hc s).
  destruct (c s) as [[a|e] s1]; cbn in *; [exact Hc|].
  destruct (existsb (isinstance e) classes); exact Hc.
Qed.

Lemma lifecycle_try_except {A} (c : M A) cls handler :
  keeps lifecycle c -> (forall e, keeps lifecycle (handler e)) ->
  keeps lifecycle (try_except c cls handler).
Proof.
  intros Hc Hh s. unfold try_except. specialize (Hc s).
  destruct (c s) as [[a|e] s1]; cbn in *; [exact Hc|].
  destruct (isinstance e cls); [|exact Hc].
  eapply lifecycle_trans; [exact Hc | apply Hh].
Qed.

Lemma lifecycle_ignore {A} (c : M A) : keeps lifecycle c -> keeps lifecycle (ignore c).
Proof. intros Hc. apply lifecycle_bind; [exact Hc | intros; apply lifecycle_ret]. Qed.

(** A change of the process object that keeps its identity and does not
    put an exit status on record respects the lifecycle. *)
Lemma lifecycle_modify_popen f :
  (forall h, pid (f h) = pid h
             /\ forall code, returncode (f h) = Some code ->
                  returncode h = Some code
                  /\ exit_time (f h) = exit_time h
                  /\ exit_status (f h) = exit_status h) ->
  keeps lifecycle (modify_popen f).
Proof.
  intros Hf s. unfold modify_popen.
  destruct (_process (self s)) as [h|] eqn:Hp; [|apply lifecycle_refl].
  destruct (Hf h) as (Hpid & Hcode). cbn.
  split; [split; reflexivity|]. split; [split; [cbn; lia|]|].
  - intros Hset h' code Hh' Hc. cbn in Hh'. inversion Hh'; subst h'. cbn.
    destruct (Hcode code Hc) as (Hc0 & Ht & Hs). rewrite Ht, Hs. exact (Hset h code Hp Hc0).
  - intros h0 Hh0. cbn. exists (f h). split; [reflexivity | split; [congruence | reflexivity]].
Qed.

Lemma lifecycle_modify_writer f : keeps lifecycle (modify_writer f).
Proof. apply lifecycle_modify_popen. intros h. cbn. auto. Qed.

Lemma lifecycle_modify_reader which f : keeps lifecycle (modify_reader which f).
Proof. apply lifecycle_modify_popen. intros h. destruct which; cbn; auto. Qed.

Lemma lifecycle_send_signal signal : keeps lifecycle (send_signal signal).
Proof.
  unfold send_signal. apply lifecycle_bind; [apply (lifecycle_pure world)|].
  intros w. apply lifecycle_modify_popen. intros h.
  destruct (returncode h) eqn:Hr.
  - split; [reflexivity | intros code Hc; repeat split; congruence].
  - destruct (((signal =? SIGTERM) || (signal =? SIGKILL)) && (now w <? exit_time h));
      cbn; (split; [reflexivity | intros code Hc; cbn in Hc; congruence]).
Qed.

(** A change of the record that only touches the world's list objects or
    appends to an accumulator respects the lifecycle. *)
Lemma lifecycle_same_process s s' :
  _process (self s') = _process (self s) ->
  now (world s') = now (world s) ->
  (spawned s = true -> requests (world s') = requests (world s)) ->
  _output (self s) `prefix_of` _output (self s') ->
  _error (self s) `prefix_of` _error (self s') ->
  lifecycle s s'.
Proof.
  intros Hp Hn Hrq Ho He. split; [split; assumption|]. split; [split; [lia|]|].
  - intros Hset h code Hh Hc. rewrite Hp in Hh. rewrite Hn. exact (Hset h code Hh Hc).
  - intros h Hh. exists h. rewrite Hp. repeat split; [exact Hh|].
    apply Hrq. unfold spawned. rewrite Hh. reflexivity.
Qed.

Lemma lifecycle_alloc l : keeps lifecycle (alloc l).
Proof. intros s. apply lifecycle_same_process; reflexivity. Qed.

Lemma lifecycle_add_output data : keeps lifecycle (AbstractProcess.add_output data).
Proof.
  intros s. apply lifecycle_same_process; cbn; try reflexivity. apply prefix_app_r. reflexivity.
Qed.

Lemma lifecycle_add_error data : keeps lifecycle (AbstractProcess.add_error data).
Proof.
  intros s. apply lifecycle_same_process; cbn; try reflexivity. apply prefix_app_r. reflexivity.
Qed.

(** Putting the child's status on record once it has exited, as [wait] and
    [poll] do. *)
Lemma lifecycle_reaped s h t :
  _process (self s) = Some h ->
  returncode h = None ->
  now (world s) <= t ->
  exit_time h <= t ->
  lifecycle s
    (mkState (set_now t (world s))
       (set_process (Some (set_returncode (Some (exit_status h)) h)) (self s))).
Proof.
  intros Hp Hr Hnow Hexit. split; [split; reflexivity|]. split; [split; [exact Hnow|]|].
  - intros _ h' code Hh' Hc. cbn in Hh', Hc. inversion Hh'; subst h'. cbn in *.
    inversion Hc. auto.
  - intros h0 Hh0. rewrite Hp in Hh0. inversion Hh0; subst h0. cbn. eauto.
Qed.

Lemma lifecycle_later s t :
  now (world s) <= t -> lifecycle s (mkState (set_now t (world s)) (self s)).
Proof.
  intros Hnow. split; [split; reflexivity|]. split; [split; [exact Hnow|]|].
  - intros Hset h code Hh Hc. cbn in *. destruct (Hset h code Hh Hc). split; [lia | assumption].
  - intros h Hh. eauto.
Qed.

Lemma lifecycle_wait timeout expired : keeps lifecycle (wait timeout expired).
Proof.
  intros s. unfold wait.
  destruct (_process (self s)) as [h|] eqn:Hp; [|apply lifecycle_refl].
  destruct (returncode h) eqn:Hr; [apply lifecycle_refl|].
  assert (Hexited : lifecycle s
    (mkState (set_now (Z.max (now (world s)) (exit_time h)) (world s))
       (set_process (Some (set_returncode (Some (exit_status h)) h)) (self s)))).
  { apply lifecycle_reaped; try assumption; lia. }
  destruct timeout as [d|]; [|exact Hexited].
  destruct (exit_time h <=? now (world s) + Z.max 0 d); [exact Hexited|].
  apply lifecycle_later. lia.
Qed.

Lemma lifecycle_poll : keeps lifecycle poll.
Proof.
  intros s. unfold poll.
  destruct (_process (self s)) as [h|] eqn:Hp; [|apply lifecycle_refl].
  destruct (returncode h) eqn:Hr; [apply lifecycle_refl|].
  destruct (exit_time h <=? now (world s)) eqn:Hle; [|apply lifecycle_refl].
  apply Z.leb_le in Hle.
  pose proof (lifecycle_reaped s h (now (world s)) Hp Hr (Z.le_refl _) Hle) as H.
  exact H.
Qed.

Ltac living :=
  repeat first
    [ apply lifecycle_ret | apply lifecycle_raise | apply lifecycle_pure
    | apply lifecycle_modify_writer | apply lifecycle_modify_reader
    | apply lifecycle_alloc | apply lifecycle_add_output | apply lifecycle_add_error
    | apply lifecycle_wait | apply lifecycle_poll | apply lifecycle_send_signal
    | apply lifecycle_bind; [|intros ?] | apply lifecycle_when
    | apply lifecycle_suppress | apply lifecycle_suppress_local
    | apply lifecycle_try_except; [|intros ?] | apply lifecycle_ignore
    | match goal with |- keeps _ (match ?x with _ => _ end) => destruct x end
    | progress (unfold del_in, repr_in, Sync.__del__, Async.__del__)
    | progress unfold_methods ].

Lemma lifecycle_feed_in m w i : keeps lifecycle (feed_in m w i).
Proof. living. Qed.

Lemma lifecycle_started s c : _process (self s) = None -> lifecycle s (started s c).
Proof.
  intros Hp. split; [split; reflexivity|]. split; [split; [cbn; lia|]|].
  - intros _ h code Hh Hc. cbn in Hh. inversion Hh; subst h. discriminate.
  - intros h Hh. congruence.
Qed.

Lemma lifecycle_run_in m : keeps lifecycle (run_in m).
Proof.
  intros s. destruct (_process (self s)) as [h|] eqn:Hp.
  - rewrite (run_again m s h Hp). apply lifecycle_refl.
  - destruct (answer_of s) as [e|c] eqn:Ha.
    + rewrite (run_refused m s e Hp Ha). apply lifecycle_same_process; try reflexivity.
      unfold spawned. rewrite Hp. discriminate.
    + rewrite (run_started m s c Hp Ha).
      eapply lifecycle_trans; [apply lifecycle_started; exact Hp | apply lifecycle_feed_in].
Qed.

Lemma lifecycle_call m c : keeps lifecycle (call m c).
Proof. destruct c; try apply lifecycle_run_in; destruct m; living. Qed.

Lemma lifecycle_del_in m : keeps lifecycle (del_in m).
Proof. destruct m; living. Qed.

Lemma lifecycle_repr_in m : keeps lifecycle (repr_in m).
Proof. destruct m; living. Qed.

Lemma lifecycle_step m c c' : step m c c' -> lifecycle (fst c) (fst c').
Proof.
  intros Hstep. destruct Hstep as [cl s held | s held | a l s held Ha | d s held Hd]; cbn.
  - apply lifecycle_call.
  - apply lifecycle_same_process; reflexivity.
  - apply lifecycle_same_process; reflexivity.
  - apply lifecycle_later. lia.
Qed.

Lemma lifecycle_reachable m c c' : reachable m c c' -> lifecycle (fst c) (fst c').
Proof.
  intros Hreach. induction Hreach as [c | c c1 c2 Hstep _ IH]; [apply lifecycle_refl|].
  eapply lifecycle_trans; [eapply lifecycle_step; exact Hstep | exact IH].
Qed.

(** X5.  Whatever the owner does with a record, its accumulators only
    grow: what [output] and [error] once returned stays a prefix of what
    they return later.  Both execution modes. *)
Theorem accumulators_only_grow (m : Mode) (c c' : Config) :
  reachable m c c' ->
  (_output (self (fst c)) `prefix_of` _output (self (fst c')))
  /\ (_error (self (fst c)) `prefix_of` _error (self (fst c'))).
Proof. intros Hreach. exact (proj1 (lifecycle_reachable m c c' Hreach)). Qed.

Lemma accumulators_only_grow_witness :
  _output (self Examples.running)
  `prefix_of` _output (self (snd (call Blocking (Output true) Examples.running))).
Proof.
  assert (Hreach : reachable Blocking (Examples.running, [])
                     (snd (call Blocking (Output true) Examples.running), [])).
  { eapply rtc_l; [apply (step_call Blocking (Output true)) | apply rtc_refl]. }
  exact (proj1 (accumulators_only_grow Blocking _ _ Hreach)).
Defined.

(** X6.  Starting from a record that holds no process object, whatever the
    owner does and however time passes, [exit_code] returns a status only
    when the child has exited by then, and it is the status of that child;
    while the child runs, [exit_code] is [None].  Both execution modes. *)
Theorem exit_code_is_of_an_exited_child (m : Mode) (s0 s : State)
    (held0 held : list nat) :
  _process (self s0) = None ->
  reachable m (s0, held0) (s, held) ->
  forall code, fst (AbstractProcess.exit_code s) = Returns (Some code) ->
    exists h, _process (self s) = Some h
              /\ exit_time h <= now (world s)
              /\ code = exit_status h.
Proof.
  intros Hp Hreach code Hcode.
  destruct (lifecycle_reachable m _ _ Hreach) as (_ & (_ & Hset) & _). cbn in Hset.
  assert (H0 : settled s0) by (intros h c Hh; congruence).
  specialize (Hset H0).
  unfold AbstractProcess.exit_code, AbstractProcess.process, bind, get_self, ret, raise
    in Hcode.
  cbn in Hcode. destruct (_process (self s)) as [h|] eqn:Hh; cbn in Hcode; [|discriminate].
  injection Hcode as Hc. exists h. split; [reflexivity|]. exact (Hset h code Hh Hc).
Qed.

Lemma exit_code_is_of_an_exited_child_witness :
  exists h,
    _process (self (snd (call Blocking (Join None)
                           (snd (call Blocking Run Examples.unspawned))))) = Some h
    /\ exit_time h
       <= now (world (snd (call Blocking (Join None)
                             (snd (call Blocking Run Examples.unspawned)))))
    /\ 0 = exit_status h.
Proof.
  assert (Hreach : reachable Blocking (Examples.unspawned, [])
                     (snd (call Blocking (Join None)
                             (snd (call Blocking Run Examples.unspawned))), [])).
  { eapply rtc_l; [apply (step_call Blocking Run)|].
    eapply rtc_l; [apply (step_call Blocking (Join None)) | apply rtc_refl]. }
  exact (exit_code_is_of_an_exited_child Blocking Examples.unspawned _ [] [] eq_refl
           Hreach 0 eq_refl).
Defined.

(** X7.  Once a record holds a process object, whatever the owner does with
    it afterwards, it holds the process object of the same child: [id]
    keeps returning the same pid, no further creation request is made, and
    [run] raises [ProcessAlreadyRunError].  Both execution modes. *)
Theorem one_child_per_record (m : Mode) (s s' : State) (held held' : list nat)
    (h : Popen) :
  _process (self s) = Some h ->
  reachable m (s, held) (s', held') ->
  fst (AbstractProcess.id s') = Returns (pid h)
  /\ requests (world s') = requests (world s)
  /\ fst (run_in m s') = Raises ProcessAlreadyRunError.
Proof.
  intros Hp Hreach.
  destruct (lifecycle_reachable m _ _ Hreach) as (_ & _ & Hsame). cbn in Hsame.
  destruct (Hsame h Hp) as (h' & Hh' & Hpid & Hrq).
  split; [|split; [exact Hrq | rewrite (run_again m s' h' Hh'); reflexivity]].
  unfold AbstractProcess.id, AbstractProcess.process, bind, get_self, ret. cbn.
  rewrite Hh'. cbn. rewrite Hpid. reflexivity.
Qed.

Lemma one_child_per_record_witness :
  fst (AbstractProcess.id (snd (call Suspending Close Examples.running))) = Returns 4242
  /\ fst (run_in Suspending (snd (call Suspending Close Examples.running)))
     = Raises ProcessAlreadyRunError.
Proof.
  assert (Hreach : reachable Suspending (Examples.running, [])
                     (snd (call Suspending Close Examples.running), [])).
  { eapply rtc_l; [apply (step_call Suspending Close) | apply rtc_refl]. }
  destruct (one_child_per_record Suspending Examples.running _ [] [] _ eq_refl Hreach)
    as (H1 & _ & H3).
  split; [exact H1 | exact H3].
Defined.

(** X18.  Whatever the owner does with a record built by [__init__], the
    dispositions of the three streams and the buffer size stay what
    construction made them.  Both execution modes. *)
Theorem spec_is_fixed (m : Mode) (dflt : Z) (a : Arguments)
    (i : option StdinArgument) (o e : option File) (b : option Z)
    (w : World) (s0 s : State) (held : list nat) :
  init_in m dflt a i o e b w = inr s0 ->
  reachable m (constructed w s0) (s, held) ->
  _stdin (self s) = i
  /\ _stdout (self s) = o
  /\ _stderr (self s) = e
  /\ _buffer_size (self s) = chosen_buffer_size m dflt b.
Proof.
  intros Hinit Hreach.
  destruct (init_in_establishes _ _ _ _ _ _ _ _ _ Hinit) as (tokens & _ & HI & _).
  pose proof (reachable_keeps_Inv _ _ _ _ _ HI Hreach) as ((_ & S2 & S3 & S4 & S5) & _).
  cbn in S2, S3, S4, S5. rewrite <- S2, <- S3, <- S4, <- S5.
  rewrite init_in_result in Hinit.
  destruct (resolved_tokens w a); [|discriminate].
  injection Hinit as <-. cbn. auto.
Qed.

Lemma spec_is_fixed_witness :
  _stderr (self (snd (call Blocking Close
                        (snd (call Blocking Run
                                (Examples.record Examples.host None (Some PIPE)
                                   (Some STDOUT)))))))
  = Some STDOUT.
Proof.
  assert (Hreach : reachable Blocking
      (constructed Examples.host
         (Examples.record Examples.host None (Some PIPE) (Some STDOUT)))
      (snd (call Blocking Close
              (snd (call Blocking Run
                      (Examples.record Examples.host None (Some PIPE) (Some STDOUT))))),
       seq 0 (length (heap Examples.host)))).
  { eapply rtc_l; [apply (step_call Blocking Run)|].
    eapply rtc_l; [apply (step_call Blocking Close) | apply rtc_refl]. }
  destruct (spec_is_fixed Blocking 8192 Examples.command None (Some PIPE)
              (Some STDOUT) None Examples.host _ _ _ eq_refl Hreach) as (_ & _ & H3 & _).
  exact H3.
Defined.


